(** * Qudit state transitions: the Dijkstra search of [statetrans.py] and the
      subspace gates of [qutrit_ghz_example.py]

    The development embeds the two Python modules of the repository:

    - [statetrans.py]: the class [heapnode] and the function
      [state_search_via_dijkstras], together with the two entry points of
      Python's [heapq] module that the function calls ([heappush] and
      [heappop], transcribed from the reference implementation
      [Lib/heapq.py]);
    - [qutrit_ghz_example.py]: the gates [x] and [subswap], the transition
      table, the success predicate and the cost function of the script.

    Python exceptions are values of type [exn]; code that may raise lives in
    the error monad [Exc].  The [while] loop of the search is iterated with
    fuel, and every statement of the form "the search returns" is proved by
    exhibiting enough fuel. *)

From stdpp Require Import base list strings gmap.
From Stdlib Require Import ZArith Lia Ascii DecimalString.

Local Open Scope Z_scope.

(** ** Python exceptions and the error monad *)

Record exn := mk_exn { exn_class : string; exn_msg : string }.

Global Instance exn_eq_dec : EqDecision exn.
Proof. solve_decision. Defined.

Definition RuntimeError (msg : string) : exn := mk_exn "RuntimeError" msg.
Definition IndexError (msg : string) : exn := mk_exn "IndexError" msg.

Inductive Exc (A : Type) : Type :=
  | Ok (a : A)
  | Raise (e : exn).
Arguments Ok {A} a.
Arguments Raise {A} e.

Definition exc_bind {A B} (m : Exc A) (k : A -> Exc B) : Exc B :=
  match m with
  | Ok a => k a
  | Raise e => Raise e
  end.

Global Instance exc_ret : MRet Exc := fun _ a => Ok a.
Global Instance exc_mbind : MBind Exc := fun _ _ k m => exc_bind m k.

(** [for a in l: acc = f(acc, a)] with a body that may raise. *)
Fixpoint exc_foldl {A B} (f : B -> A -> Exc B) (acc : B) (l : list A) : Exc B :=
  match l with
  | [] => Ok acc
  | a :: l' => acc' ← f acc a; exc_foldl f acc' l'
  end.

(** ** [heapq]: the binary heap on a Python list

    [heapq] orders the items with [<] only.  Positions are list indices; a
    Python list assignment [heap[i] = v] is [<[i:=v]> heap]. *)

Module heapq.
Section heapq.
Context {A : Type} (lt : A -> A -> bool).

(** The [while pos > startpos] loop of [_siftdown]; [pos] strictly
    decreases, so [pos] iterations are enough. *)
Fixpoint _siftdown_loop (fuel : nat) (heap : list A) (startpos pos : nat)
    (newitem : A) : list A :=
  match fuel with
  | O => <[pos := newitem]> heap
  | S fuel' =>
      if bool_decide (startpos < pos)%nat then
        let parentpos := Nat.shiftr (pos - 1) 1 in
        match heap !! parentpos with
        | Some parent =>
            if lt newitem parent
            then _siftdown_loop fuel' (<[pos := parent]> heap) startpos parentpos newitem
            else <[pos := newitem]> heap
        | None => <[pos := newitem]> heap
        end
      else <[pos := newitem]> heap
  end.

Definition _siftdown (heap : list A) (startpos pos : nat) : list A :=
  match heap !! pos with
  | Some newitem => _siftdown_loop pos heap startpos pos newitem
  | None => heap
  end.

(** The [while childpos < endpos] loop of [_siftup]: the smaller child is
    moved up until a leaf is reached; the result is the heap and the final
    [pos]. *)
Fixpoint _siftup_loop (fuel : nat) (heap : list A) (endpos pos : nat)
    : list A * nat :=
  match fuel with
  | O => (heap, pos)
  | S fuel' =>
      let childpos := (2 * pos + 1)%nat in
      if bool_decide (childpos < endpos)%nat then
        let rightpos := (childpos + 1)%nat in
        let childpos :=
          match heap !! childpos, heap !! rightpos with
          | Some l, Some r =>
              if bool_decide (rightpos < endpos)%nat && negb (lt l r)
              then rightpos else childpos
          | _, _ => childpos
          end in
        match heap !! childpos with
        | Some c => _siftup_loop fuel' (<[pos := c]> heap) endpos childpos
        | None => (heap, pos)
        end
      else (heap, pos)
  end.

Definition _siftup (heap : list A) (pos : nat) : list A :=
  let endpos := length heap in
  let startpos := pos in
  match heap !! pos with
  | Some newitem =>
      let '(heap, pos) := _siftup_loop endpos heap endpos pos in
      _siftdown (<[pos := newitem]> heap) startpos pos
  | None => heap
  end.

Definition heappush (heap : list A) (item : A) : list A :=
  let heap := heap ++ [item] in
  _siftdown heap 0 (length heap - 1).

(** [heap.pop()] in [heappop].  On an empty heap [heappop] raises
    [IndexError]; CPython runs the C implementation of the module, whose
    message is the one below. *)
Definition list_pop (l : list A) : Exc (A * list A) :=
  match last l with
  | Some a => Ok (a, removelast l)
  | None => Raise (IndexError "index out of range")
  end.

Definition heappop (heap : list A) : Exc (A * list A) :=
  '(lastelt, heap) ← list_pop heap;
  match heap with
  | returnitem :: _ => Ok (returnitem, _siftup (<[0%nat := lastelt]> heap) 0)
  | [] => Ok (lastelt, heap)
  end.
End heapq.
End heapq.

(** ** [statetrans.py] *)

(** [State = Tuple[str, ...]] and [Path = Tuple[str, ...]]. *)
Definition State : Type := list string.
Definition Path : Type := list string.

(** [Transition = Callable[[State], State]]; a Python callable may raise
    (the gate [x] below raises [IndexError] on a basis string that is too
    short), and the search lets the exception through. *)
Definition Transition : Type := State -> Exc State.

(** The class [heapnode]: the comparison methods look at the cost only. *)
Module heapnode.
Record t := __init__ { state : State; path : Path; cost : Z }.

Definition __lt__ (self other : t) : bool := bool_decide (cost self < cost other).
Definition __eq__ (self other : t) : bool := bool_decide (cost self = cost other).
Definition __gt__ (self other : t) : bool := bool_decide (cost other < cost self).
End heapnode.

Abbreviation heapnode := heapnode.t.
Abbreviation heappush := (heapq.heappush heapnode.__lt__).
Abbreviation heappop := (heapq.heappop heapnode.__lt__).

(** The message of the [raise] that ends [state_search_via_dijkstras]. *)
Definition no_solution_found : exn := RuntimeError "No solution found.".

(** How a run of the search ends: [return node.path], an exception, or the
    loop is still running when the fuel is spent. *)
Inductive outcome :=
  | Return (p : Path)
  | Raised (e : exn)
  | OutOfFuel.

(** What one iteration of the [while] loop does to the control flow. *)
Inductive control :=
  | Continue (visited : gmap State Path) (frontier : list heapnode)
  | ReturnPath (p : Path).

Section search.
Variable init_state : State.
Variable transitions : list (string * Transition).
Variable success : State -> bool.
Variable cost : Path -> Z.

(** The body of [for name, transition in transitions.items()]. *)
Definition expand_one (visited : gmap State Path) (node : heapnode)
    (frontier : list heapnode) (item : string * Transition)
    : Exc (list heapnode) :=
  let '(name, transition) := item in
  new_state ← transition (heapnode.state node);
  match visited !! new_state with
  | None =>
      let new_path := heapnode.path node ++ [name] in
      Ok (heappush frontier (heapnode.__init__ new_state new_path (cost new_path)))
  | Some _ => Ok frontier
  end.

Definition expand (visited : gmap State Path) (node : heapnode)
    (frontier : list heapnode) : Exc (list heapnode) :=
  exc_foldl (expand_one visited node) frontier transitions.

(** The body of the [while] loop. *)
Definition loop_body (visited : gmap State Path) (frontier : list heapnode)
    : Exc control :=
  '(node, frontier) ← heappop frontier;
  match visited !! heapnode.state node with
  | Some _ => Ok (Continue visited frontier)
  | None =>
      let visited := <[heapnode.state node := heapnode.path node]> visited in
      if success (heapnode.state node) then Ok (ReturnPath (heapnode.path node))
      else
        frontier ← expand visited node frontier;
        Ok (Continue visited frontier)
  end.

Fixpoint while_loop (fuel : nat) (visited : gmap State Path)
    (frontier : list heapnode) : outcome :=
  match fuel with
  | O => OutOfFuel
  | S fuel' =>
      if bool_decide (0 < length frontier)%nat then
        match loop_body visited frontier with
        | Ok (Continue visited frontier) => while_loop fuel' visited frontier
        | Ok (ReturnPath p) => Return p
        | Raise e => Raised e
        end
      else Raised no_solution_found
  end.

Definition initial_frontier : list heapnode :=
  heappush [] (heapnode.__init__ init_state [] (cost [])).

Definition state_search_via_dijkstras (fuel : nat) : outcome :=
  while_loop fuel ∅ initial_frontier.

(** The configurations of the loop, for statements about its whole run:
    [run n] is the configuration at the head of the loop after [n]
    iterations, if the loop gets that far. *)
Fixpoint run (n : nat) : option (gmap State Path * list heapnode) :=
  match n with
  | O => Some (∅, initial_frontier)
  | S n' =>
      match run n' with
      | Some (visited, frontier) =>
          if bool_decide (0 < length frontier)%nat then
            match loop_body visited frontier with
            | Ok (Continue visited frontier) => Some (visited, frontier)
            | _ => None
            end
          else None
      | None => None
      end
  end.
End search.

(** ** Python strings: [str(int)], indexing and slicing *)

Module pystr.
Definition chars (s : string) : list ascii := String.list_ascii_of_string s.
Definition of_chars (l : list ascii) : string := String.string_of_list_ascii l.
Definition len (s : string) : Z := Z.of_nat (length (chars s)).

(** [str(n)] for an [int]: decimal digits, with a leading [-] below zero.
    CPython prints the integers of at most 4300 digits this way and
    raises [ValueError] on longer ones, which the model leaves out. *)
Definition str (n : Z) : string := NilZero.string_of_int (Z.to_int n).

(** [s[i]]: a negative index counts from the end; out of range raises.
    For an index that does not fit a machine word CPython raises
    [IndexError] too, with another message, which the model leaves out. *)
Definition getitem (s : string) (i : Z) : Exc string :=
  let i := if bool_decide (i < 0) then i + len s else i in
  if bool_decide (0 <= i < len s) then
    match chars s !! Z.to_nat i with
    | Some c => Ok (of_chars [c])
    | None => Raise (IndexError "string index out of range")
    end
  else Raise (IndexError "string index out of range").

(** One bound of a slice with step 1: [None] is the default, a negative
    bound counts from the end, and the result is clipped to [0, len]. *)
Definition adjust (n : Z) (bound : option Z) (default : Z) : Z :=
  match bound with
  | None => default
  | Some i => if bool_decide (i < 0) then Z.max 0 (i + n) else Z.min i n
  end.

(** [s[start:stop]]; never raises. *)
Definition slice (s : string) (start stop : option Z) : string :=
  let lo := adjust (len s) start 0 in
  let hi := adjust (len s) stop (len s) in
  of_chars (take (Z.to_nat (hi - lo)) (drop (Z.to_nat lo) (chars s))).
End pystr.

(** ** [qutrit_ghz_example.py] *)

(** [for string in state: ...; new_state.append(new_string)] *)
Definition for_each_append (body : string -> Exc string) (state : State) : Exc State :=
  exc_foldl (fun new_state string =>
               new_string ← body string; Ok (new_state ++ [new_string]))
            [] state.

Definition x (state : State) (qubit low_radix : Z) : Exc State :=
  let high_radix := low_radix + 1 in
  let low_radix_str := pystr.str low_radix in
  let high_radix_str := pystr.str high_radix in
  for_each_append (fun string =>
    let new_string := pystr.slice string None (Some qubit) in
    c ← pystr.getitem string qubit;
    new_string ←
      (if bool_decide (c = high_radix_str) then Ok (new_string +:+ low_radix_str)
       else
         c ← pystr.getitem string qubit;
         if bool_decide (c = low_radix_str) then Ok (new_string +:+ high_radix_str)
         else
           c ← pystr.getitem string qubit;
           Ok (new_string +:+ c));
    Ok (new_string +:+ pystr.slice string (Some (qubit + 1)) None)) state.

Definition subswap (state : State) (low_qubit low_radix : Z) : Exc State :=
  let high_radix := low_radix + 1 in
  let low_radix_str := pystr.str low_radix +:+ pystr.str low_radix in
  let high_radix_str := pystr.str high_radix +:+ pystr.str high_radix in
  for_each_append (fun string =>
    let new_string := pystr.slice string None (Some low_qubit) in
    let pair := pystr.slice string (Some low_qubit) (Some (low_qubit + 2)) in
    let new_string :=
      if bool_decide (pair = low_radix_str) then new_string +:+ high_radix_str
      else if bool_decide (pair = high_radix_str) then new_string +:+ low_radix_str
      else new_string +:+ pair in
    Ok (new_string +:+ pystr.slice string (Some (low_qubit + 2)) None)) state.

Module example.
Definition x0_01 : Transition := fun state => x state 0 0.
Definition x1_01 : Transition := fun state => x state 1 0.
Definition x2_01 : Transition := fun state => x state 2 0.
Definition x0_12 : Transition := fun state => x state 0 1.
Definition x1_12 : Transition := fun state => x state 1 1.
Definition x2_12 : Transition := fun state => x state 2 1.
Definition subswap12_01 : Transition := fun state => subswap state 1 0.
Definition subswap12_12 : Transition := fun state => subswap state 1 1.

Definition transitions : list (string * Transition) :=
  [ ("x1_01", x1_01); ("x2_01", x2_01); ("x1_12", x1_12); ("x2_12", x2_12);
    ("subswap12_01", subswap12_01); ("subswap12_12", subswap12_12) ].

Definition success (state : State) : bool :=
  bool_decide ("000" ∈ state) && bool_decide ("111" ∈ state)
  && bool_decide ("222" ∈ state).

Definition init_state : State := ["000"; "110"; "220"].

Definition cost (path : Path) : Z :=
  Z.of_nat (length (filter (fun x => String.prefix "subswap" x = true) path)) * 10
  + Z.of_nat (length path).
End example.

(** * Vocabulary of the specification *)

(** ** Paths through the transition table *)

(** [d[k]] on a dictionary given by its items; the keys of a Python [dict]
    are distinct, which the statements below assume as [NoDup d.*1]. *)
Fixpoint dict_get {V} (d : list (string * V)) (k : string) : option V :=
  match d with
  | [] => None
  | (k', v) :: d' => if decide (k' = k) then Some v else dict_get d' k
  end.

Section paths.
Variable transitions : list (string * Transition).

(** [transitions[name](s)], when the name is a key and the call returns. *)
Definition apply_transition (s : State) (name : string) : option State :=
  transition ← dict_get transitions name;
  match transition s with
  | Ok s' => Some s'
  | Raise _ => None
  end.

(** Applying the transitions of a path in order, from [s]. *)
Fixpoint follow (s : State) (p : Path) : option State :=
  match p with
  | [] => Some s
  | name :: p' => s' ← apply_transition s name; follow s' p'
  end.

(** The states of the implicit graph that some path reaches. *)
Definition reachable (init_state s : State) : Prop :=
  exists p, follow init_state p = Some s.

(** No transition raises on a state of the graph. *)
Definition transitions_defined (init_state : State) : Prop :=
  forall s name transition,
    reachable init_state s -> (name, transition) ∈ transitions ->
    exists s', transition s = Ok s'.
End paths.

(** ** Cost functions and optimal paths *)

(** [cost(p) <= cost(p + [t])] for all paths and transition identifiers. *)
Definition monotone_cost (cost : Path -> Z) : Prop :=
  forall p name, cost p <= cost (p ++ [name]).

(** Extending two paths that reach the same state by the same transition
    keeps their order of cost.  Every additive cost has this property. *)
Definition extension_keeps_order (transitions : list (string * Transition))
    (init_state : State) (cost : Path -> Z) : Prop :=
  forall p q name s,
    follow transitions init_state p = Some s ->
    follow transitions init_state q = Some s ->
    cost p <= cost q -> cost (p ++ [name]) <= cost (q ++ [name]).

(** [p] reaches a success state. *)
Definition reaches_success (transitions : list (string * Transition))
    (init_state : State) (success : State -> bool) (p : Path) : Prop :=
  exists s, follow transitions init_state p = Some s /\ success s = true.

(** The cost of [p] is the minimum over the paths that reach success. *)
Definition cheapest_success_path (transitions : list (string * Transition))
    (init_state : State) (success : State -> bool) (cost : Path -> Z)
    (p : Path) : Prop :=
  reaches_success transitions init_state success p
  /\ forall q, reaches_success transitions init_state success q -> cost p <= cost q.



(** ** The heap invariant of [heapq] *)

Module heapq_spec.
Section heapq_spec.
Context {A : Type} (key : A -> Z).

Definition parent (j : nat) : nat := Nat.shiftr (j - 1) 1.

(** [h[i] <= h[j]] by key, wherever both positions exist. *)
Definition le_at (h : list A) (i j : nat) : Prop :=
  forall a b, h !! i = Some a -> h !! j = Some b -> key a <= key b.

(** [heap[(j-1)>>1] <= heap[j]] for every position [j > 0]. *)
Definition heap_ok (h : list A) : Prop :=
  forall j, (0 < j)%nat -> le_at h (parent j) j.

(** The invariant with a hole at [pos]: the value stored there is stale,
    every comparison that does not read it holds, and the parent of the
    hole is below the children of the hole. *)
Definition hole_ok (h : list A) (pos : nat) : Prop :=
  (forall j, (0 < j)%nat -> j <> pos -> parent j <> pos -> le_at h (parent j) j)
  /\ (forall c, (0 < pos)%nat -> (0 < c)%nat -> parent c = pos ->
                le_at h (parent pos) c).

(** [newitem] is below the children of [pos]. *)
Definition below_children (newitem : A) (h : list A) (pos : nat) : Prop :=
  forall c b, (0 < c)%nat -> parent c = pos -> h !! c = Some b ->
              key newitem <= key b.

(** The child that [_siftup] moves up: the right one unless the left one
    is strictly smaller. *)
Definition smaller_child (h : list A) (endpos pos : nat) : nat :=
  match h !! (2 * pos + 1)%nat, h !! (2 * pos + 1 + 1)%nat with
  | Some l, Some r =>
      if bool_decide (2 * pos + 1 + 1 < endpos)%nat && negb (bool_decide (key l < key r))
      then (2 * pos + 1 + 1)%nat else (2 * pos + 1)%nat
  | _, _ => (2 * pos + 1)%nat
  end.
End heapq_spec.
End heapq_spec.

(** ** The invariant of the search loop *)

Module search_spec.
Section search_spec.
Variable init_state : State.
Variable transitions : list (string * Transition).
Variable success : State -> bool.
Variable cost : Path -> Z.

(** The frontier is a heap ordered by cost. *)
Definition frontier_ok (f : list heapnode) : Prop :=
  heapq_spec.heap_ok heapnode.cost f.

(** The node that the expansion of [node] pushes for [name]. *)
Definition new_node (node : heapnode) (name : string) (s : State) : heapnode :=
  heapnode.__init__ s (heapnode.path node ++ [name])
                    (cost (heapnode.path node ++ [name])).

Record search_inv (v : gmap State Path) (f : list heapnode) : Prop := {
  inv_heap : frontier_ok f;
  inv_node : forall n, n ∈ f ->
    follow transitions init_state (heapnode.path n) = Some (heapnode.state n)
    /\ heapnode.cost n = cost (heapnode.path n);
  inv_visited : forall s p, v !! s = Some p ->
    follow transitions init_state p = Some s /\ success s = false;
  inv_expanded : forall s p name transition,
    v !! s = Some p -> (name, transition) ∈ transitions ->
    exists s', transition s = Ok s'
      /\ (is_Some (v !! s')
          \/ heapnode.__init__ s' (p ++ [name]) (cost (p ++ [name])) ∈ f);
  inv_init :
    is_Some (v !! init_state) \/ heapnode.__init__ init_state [] (cost []) ∈ f
}.

(** How the loop leaves the configuration [(v, f)] with the outcome [r]. *)
Definition finishes (v : gmap State Path) (f : list heapnode) (r : outcome) : Prop :=
  (f = [] /\ r = Raised no_solution_found)
  \/ ((0 < length f)%nat
      /\ ((exists p, loop_body transitions success cost v f = Ok (ReturnPath p)
                     /\ r = Return p)
          \/ (exists e, loop_body transitions success cost v f = Raise e
                        /\ r = Raised e))).

(** The path recorded for a visited state is a cheapest path to it. *)
Definition opt_inv (v : gmap State Path) : Prop :=
  forall s p q, v !! s = Some p -> follow transitions init_state q = Some s ->
                cost p <= cost q.

(** The measure that decreases with every iteration when the states of
    the graph all lie in the finite set [R]. *)
Definition measure (R : gset State) (v : gmap State Path) (f : list heapnode) : nat :=
  (length f + length transitions * size (R ∖ dom v))%nat.
End search_spec.

Arguments inv_heap {init_state transitions success cost} v f _.
Arguments inv_node {init_state transitions success cost} v f _.
Arguments inv_visited {init_state transitions success cost} v f _.
Arguments inv_expanded {init_state transitions success cost} v f _.
Arguments inv_init {init_state transitions success cost} v f _.
End search_spec.

(** ** The gates on one basis string *)

(** The body of the loop of [x] and of [subswap]. *)
Definition x_body (qubit : Z) (low_radix_str high_radix_str : string)
    : string -> Exc string := fun string =>
  let new_string := pystr.slice string None (Some qubit) in
  c ← pystr.getitem string qubit;
  new_string ←
    (if bool_decide (c = high_radix_str) then Ok (new_string +:+ low_radix_str)
     else
       c ← pystr.getitem string qubit;
       if bool_decide (c = low_radix_str) then Ok (new_string +:+ high_radix_str)
       else
         c ← pystr.getitem string qubit;
         Ok (new_string +:+ c));
  Ok (new_string +:+ pystr.slice string (Some (qubit + 1)) None).

Definition subswap_body (low_qubit : Z) (low_radix_str high_radix_str : string)
    : string -> Exc string := fun string =>
  let new_string := pystr.slice string None (Some low_qubit) in
  let pair := pystr.slice string (Some low_qubit) (Some (low_qubit + 2)) in
  let new_string :=
    if bool_decide (pair = low_radix_str) then new_string +:+ high_radix_str
    else if bool_decide (pair = high_radix_str) then new_string +:+ low_radix_str
    else new_string +:+ pair in
  Ok (new_string +:+ pystr.slice string (Some (low_qubit + 2)) None).

(** What the gates do to the character at [qubit] and to the pair of
    characters at [low_qubit], when the two labels are single characters. *)
Definition flip_char (dl dh c : ascii) : ascii :=
  if decide (c = dh) then dl else if decide (c = dl) then dh else c.

Definition flip_pair (dl dh : ascii) (pair : list ascii) : list ascii :=
  if decide (pair = [dl; dl]) then [dh; dh]
  else if decide (pair = [dh; dh]) then [dl; dl] else pair.

(** Both labels of the subspace, [str(low_radix)] and [str(low_radix + 1)],
    are single characters. *)
Definition single_digit (low_radix : Z) : Prop := 0 <= low_radix <= 8.

(** Every basis string has a character at position [qubit] (a negative
    position counts from the end). *)
Definition long_enough (state : State) (qubit : Z) : Prop :=
  Forall (fun s => - pystr.len s <= qubit < pystr.len s) state.

(** The two states have as many basis strings, of the same lengths. *)
Definition same_shape (state state' : State) : Prop :=
  length state' = length state
  /\ Forall2 (fun s s' => pystr.len s' = pystr.len s) state state'.

(** Applying a gate twice gives the state back. *)
Definition self_inverse (gate : State -> Exc State) (state : State) : Prop :=
  exists state', gate state = Ok state' /\ gate state' = Ok state.

(** ** Inputs of the examples *)

(** Two toggles on a two-position state (the first two gates of the script,
    on the positions 0 and 1): from [00] the state [11] is two steps away,
    along two paths of equal cost. *)
Module flips.
Definition transitions : list (string * Transition) :=
  [ ("x0_01", example.x0_01); ("x1_01", example.x1_01) ].
Definition init_state : State := ["00"].
Definition success (state : State) : bool := bool_decide (state = ["11"]).
(** A success predicate that no state of the graph satisfies. *)
Definition never (state : State) : bool := bool_decide (state = ["22"]).
Definition cost (path : Path) : Z := Z.of_nat (length path).
Definition states : list State := [ ["00"]; ["10"]; ["01"]; ["11"] ].
End flips.

(** A graph on the states [0], [1], [2], [3] with a cost that is monotone
    under extension but depends on the whole path: [a] leads from [0] and
    from [2] to [1], [b] from [0] to [2], [t] from [1] to the success state
    [3]; a path that starts with [b] costs 2, the path [a] costs 1 and every
    other non-empty path costs 100. *)
Module detour.
Definition a : Transition := fun state =>
  Ok (if decide (state = ["0"]) then ["1"]
      else if decide (state = ["2"]) then ["1"] else state).
Definition b : Transition := fun state =>
  Ok (if decide (state = ["0"]) then ["2"] else state).
Definition t : Transition := fun state =>
  Ok (if decide (state = ["1"]) then ["3"] else state).
Definition transitions : list (string * Transition) :=
  [ ("a", a); ("b", b); ("t", t) ].
Definition init_state : State := ["0"].
Definition success (state : State) : bool := bool_decide (state = ["3"]).
Definition cost (path : Path) : Z :=
  match path with
  | [] => 0
  | name :: rest =>
      if decide (name = "b") then 2
      else if decide (name = "a") then match rest with [] => 1 | _ => 100 end
      else 100
  end.
End detour.

(** A table whose second transition fails with the exception that the
    search itself raises on an exhausted frontier, on a graph where the
    first transition leads from the initial state [00] to the success
    state [10]. *)
Module conflated.
Definition refuse : Transition := fun _ => Raise (RuntimeError "No solution found.").
Definition transitions : list (string * Transition) :=
  [ ("x0_01", example.x0_01); ("refuse", refuse) ].
Definition init_state : State := ["00"].
Definition success (state : State) : bool := bool_decide (state = ["10"]).
Definition cost (path : Path) : Z := Z.of_nat (length path).
End conflated.

(** ** Vocabulary of the further properties *)

(** Every proper prefix of [p] leads to a visited state whose recorded path
    is that prefix. *)
Definition prefixes_visited (transitions : list (string * Transition))
    (init_state : State) (v : gmap State Path) (p : Path) : Prop :=
  forall q r, p = q ++ r -> r <> [] ->
    exists s, follow transitions init_state q = Some s /\ v !! s = Some q.

(** The frontier obtained by pushing the nodes one by one. *)
Definition push_all (nodes : list heapnode) : list heapnode :=
  foldl heappush [] nodes.


(** The positions that fit an index on every platform (32 bits), and the
    integers that [str] prints (at most 4300 digits). *)
Definition index_sized (i : Z) : Prop := - 2 ^ 31 <= i < 2 ^ 31.
Definition printable (n : Z) : Prop := Z.abs n < 10 ^ 4300.

(** The state the script looks for, in the order of its docstring. *)
Definition ghz : State := ["000"; "111"; "222"].

(** A state of the script: three basis strings of three characters. *)
Definition three_qutrits (state : State) : Prop :=
  length state = 3%nat /\ Forall (fun s => pystr.len s = 3) state.


(** * Correctness of [heapq] *)

Section heapq_facts.
Context {A : Type} (key : A -> Z).
Local Abbreviation lt := (fun a b : A => bool_decide (key a < key b)).
Local Abbreviation parent := heapq_spec.parent.
Local Abbreviation le_at := (heapq_spec.le_at key).
Local Abbreviation heap_ok := (heapq_spec.heap_ok key).
Local Abbreviation hole_ok := (heapq_spec.hole_ok key).
Local Abbreviation below_children := (heapq_spec.below_children key).
Local Abbreviation smaller_child := (heapq_spec.smaller_child key).

Lemma parent_spec j :
  (0 < j)%nat -> (j = 2 * parent j + 1 \/ j = 2 * parent j + 2)%nat.
Proof.
  intros Hj. unfold heapq_spec.parent. rewrite Nat.shiftr_div_pow2. simpl (2 ^ 1)%nat.
  pose proof (Nat.div_mod_eq (j - 1) 2) as Hd.
  pose proof (Nat.mod_upper_bound (j - 1) 2) as Hm. lia.
Qed.

Lemma parent_lt j : (0 < j)%nat -> (parent j < j)%nat.
Proof. intros Hj. destruct (parent_spec j Hj); lia. Qed.

Lemma parent_left pos : parent (2 * pos + 1) = pos.
Proof. destruct (parent_spec (2 * pos + 1)); lia. Qed.

Lemma parent_right pos : parent (2 * pos + 1 + 1) = pos.
Proof. destruct (parent_spec (2 * pos + 1 + 1)); lia. Qed.

Lemma parent_child c pos :
  (0 < c)%nat -> parent c = pos -> (c = 2 * pos + 1 \/ c = 2 * pos + 1 + 1)%nat.
Proof. intros Hc <-. destruct (parent_spec c Hc); lia. Qed.

Lemma lookup_insert_hole (h : list A) pos v i :
  (pos < length h)%nat ->
  <[pos := v]> h !! i = if decide (i = pos) then Some v else h !! i.
Proof.
  intros Hpos. destruct (decide (i = pos)) as [->|Hne].
  - by apply list_lookup_insert_eq.
  - by apply list_lookup_insert_ne.
Qed.

Lemma _siftdown_loop_S fuel (h : list A) startpos pos newitem :
  heapq._siftdown_loop lt (S fuel) h startpos pos newitem =
  if bool_decide (startpos < pos)%nat then
    match h !! parent pos with
    | Some p =>
        if bool_decide (key newitem < key p)
        then heapq._siftdown_loop lt fuel (<[pos := p]> h) startpos (parent pos) newitem
        else <[pos := newitem]> h
    | None => <[pos := newitem]> h
    end
  else <[pos := newitem]> h.
Proof. reflexivity. Qed.

Lemma _siftup_loop_S fuel (h : list A) endpos pos :
  heapq._siftup_loop lt (S fuel) h endpos pos =
  if bool_decide (2 * pos + 1 < endpos)%nat then
    match h !! smaller_child h endpos pos with
    | Some c => heapq._siftup_loop lt fuel (<[pos := c]> h) endpos (smaller_child h endpos pos)
    | None => (h, pos)
    end
  else (h, pos).
Proof. reflexivity. Qed.

Lemma smaller_child_cases (h : list A) endpos pos :
  smaller_child h endpos pos = (2 * pos + 1)%nat
  \/ smaller_child h endpos pos = (2 * pos + 1 + 1)%nat.
Proof. unfold heapq_spec.smaller_child. repeat case_match; auto. Qed.

(** *** Permutations *)

Lemma delete_insert_same (l : list A) j a : delete j (<[j := a]> l) = delete j l.
Proof.
  revert j. induction l as [|c l IH]; intros [|j]; simpl; try done.
  by rewrite IH.
Qed.

Lemma insert_Permutation (l : list A) j a :
  (j < length l)%nat -> <[j := a]> l ≡ₚ a :: delete j l.
Proof.
  intros Hj. rewrite <- (delete_insert_same l j a).
  apply delete_Permutation. by apply list_lookup_insert_eq.
Qed.

Lemma insert_swap_Permutation (l : list A) i j a b :
  l !! i = Some a -> (j < length l)%nat -> i <> j ->
  <[i := b]> (<[j := a]> l) ≡ₚ <[j := b]> l.
Proof.
  intros Hi Hj Hne.
  assert (Hi' : (i < length l)%nat) by (by eapply lookup_lt_Some).
  rewrite (insert_Permutation (<[j := a]> l) i b)
    by (by rewrite length_insert).
  rewrite (insert_Permutation l j b) by done.
  apply Permutation_skip.
  apply (Permutation_cons_inv (a := a)).
  rewrite <- (insert_Permutation l j a) by done.
  symmetry. apply delete_Permutation.
  by rewrite list_lookup_insert_ne.
Qed.

Lemma _siftdown_loop_Permutation fuel (h : list A) pos newitem :
  (pos < length h)%nat ->
  heapq._siftdown_loop lt fuel h 0 pos newitem ≡ₚ <[pos := newitem]> h.
Proof.
  revert h pos. induction fuel as [|fuel IH]; intros h pos Hpos;
    [reflexivity|].
  rewrite _siftdown_loop_S.
  case_bool_decide as Hlt; [|reflexivity].
  destruct (h !! parent pos) as [p|] eqn:Hp; [|reflexivity].
  destruct (bool_decide (key newitem < key p)); [|reflexivity].
  pose proof (parent_lt pos Hlt) as Hpp.
  rewrite IH by (rewrite length_insert; lia).
  apply insert_swap_Permutation; [done|done|lia].
Qed.

Lemma _siftdown_Permutation (h : list A) pos : heapq._siftdown lt h 0 pos ≡ₚ h.
Proof.
  unfold heapq._siftdown. destruct (h !! pos) as [newitem|] eqn:Hpos; [|done].
  rewrite _siftdown_loop_Permutation by (by eapply lookup_lt_Some).
  by rewrite list_insert_id.
Qed.

Lemma heappush_Permutation (h : list A) item :
  heapq.heappush lt h item ≡ₚ item :: h.
Proof.
  unfold heapq.heappush. rewrite _siftdown_Permutation.
  by rewrite Permutation_app_comm.
Qed.

Lemma _siftup_loop_Permutation fuel (h : list A) endpos pos newitem h' pos' :
  (pos < length h)%nat ->
  heapq._siftup_loop lt fuel h endpos pos = (h', pos') ->
  (pos' < length h')%nat /\ <[pos' := newitem]> h' ≡ₚ <[pos := newitem]> h.
Proof.
  revert h pos. induction fuel as [|fuel IH]; intros h pos Hpos.
  { intros [= <- <-]. done. }
  rewrite _siftup_loop_S.
  case_bool_decide as Hlt; [|by intros [= <- <-]].
  pose proof (smaller_child_cases h endpos pos) as Hcp.
  destruct (h !! smaller_child h endpos pos) as [c|] eqn:Hc; [|by intros [= <- <-]].
  intros Hloop. apply (IH _ _) in Hloop as [Hlen Hperm].
  2:{ rewrite length_insert. by eapply lookup_lt_Some. }
  split; [done|]. rewrite Hperm.
  apply insert_swap_Permutation; [done|done|lia].
Qed.

Lemma _siftup_Permutation (h : list A) : heapq._siftup lt h 0 ≡ₚ h.
Proof.
  unfold heapq._siftup. destruct (h !! 0%nat) as [newitem|] eqn:H0; [|done].
  destruct (heapq._siftup_loop lt (length h) h (length h) 0) as [h' pos'] eqn:Hloop.
  apply (_siftup_loop_Permutation _ _ _ _ newitem) in Hloop as [Hlen Hperm];
    [|by eapply lookup_lt_Some].
  rewrite _siftdown_Permutation, Hperm. by rewrite list_insert_id.
Qed.

Lemma list_pop_Ok (l : list A) a l' :
  heapq.list_pop l = Ok (a, l') <-> l = l' ++ [a].
Proof.
  unfold heapq.list_pop. split.
  - destruct l as [|b l] using rev_ind; [done|].
    rewrite last_snoc, removelast_last. by intros [= <- <-].
  - intros ->. by rewrite last_snoc, removelast_last.
Qed.

Lemma list_pop_Raise (l : list A) e : heapq.list_pop l = Raise e -> l = [].
Proof.
  unfold heapq.list_pop. destruct l as [|b l] using rev_ind; [done|].
  by rewrite last_snoc.
Qed.

Lemma heappop_Permutation (h : list A) item h' :
  heapq.heappop lt h = Ok (item, h') -> h ≡ₚ item :: h'.
Proof.
  unfold heapq.heappop. destruct (heapq.list_pop h) as [[lastelt h0]|e] eqn:Hpop;
    [|done].
  apply list_pop_Ok in Hpop as ->. simpl.
  destruct h0 as [|r h0]; simpl.
  - by intros [= <- <-].
  - intros [= <- <-]. rewrite _siftup_Permutation. simpl.
    apply Permutation_skip. symmetry. apply Permutation_cons_append.
Qed.

Lemma heappop_nonempty (h : list A) :
  (0 < length h)%nat -> exists item h', heapq.heappop lt h = Ok (item, h').
Proof.
  intros Hlen. unfold heapq.heappop.
  destruct (heapq.list_pop h) as [[lastelt h0]|e] eqn:Hpop.
  - simpl. destruct h0; eauto.
  - apply list_pop_Raise in Hpop as ->. simpl in Hlen. lia.
Qed.

(** *** The heap invariant *)

Lemma fill_hole (h : list A) pos newitem :
  (pos < length h)%nat -> hole_ok h pos -> below_children newitem h pos ->
  ((0 < pos)%nat -> forall p, h !! parent pos = Some p -> key p <= key newitem) ->
  heap_ok (<[pos := newitem]> h).
Proof.
  intros Hpos [Ha Hb] Hc Hp j Hj a b.
  rewrite !lookup_insert_hole by done.
  pose proof (parent_lt j Hj) as Hpj.
  destruct (decide (j = pos)) as [->|Hne].
  - rewrite decide_False by lia. intros Hpar [= <-]. by apply Hp.
  - destruct (decide (parent j = pos)) as [Hpar|Hnp].
    + intros [= <-] Hjb. by eapply Hc.
    + by apply Ha.
Qed.

Lemma hole_up (h : list A) pos newitem p :
  (pos < length h)%nat -> (0 < pos)%nat -> hole_ok h pos ->
  below_children newitem h pos -> h !! parent pos = Some p ->
  key newitem < key p ->
  hole_ok (<[pos := p]> h) (parent pos)
  /\ below_children newitem (<[pos := p]> h) (parent pos).
Proof.
  intros Hpos Hlt [Ha Hb] Hc Hp Hnew.
  pose proof (parent_lt pos Hlt) as Hpp.
  assert (Hroot : (0 < parent pos)%nat -> forall a, h !! parent (parent pos) = Some a ->
                  key a <= key p).
  { intros H0 a Hpa. pose proof (parent_lt _ H0).
    apply (Ha (parent pos)); [done|lia|lia|done|done]. }
  assert (Hsib : forall c b, (0 < c)%nat -> c <> pos -> parent c = parent pos ->
                 h !! c = Some b -> key p <= key b).
  { intros c b H0 Hne Hpar Hcb. apply (Ha c); [done|done|lia| |done].
    by rewrite Hpar. }
  repeat split.
  - intros j Hj Hne Hnp a b. rewrite !lookup_insert_hole by done.
    rewrite (decide_False (P := j = pos)) by congruence.
    destruct (decide (parent j = pos)) as [Hpar|Hnpar].
    + intros [= <-] Hjb. by apply (Hb j Hlt Hj Hpar).
    + apply Ha; [done|congruence|done].
  - intros c H0 Hc0 Hpar a b. rewrite !lookup_insert_hole by done.
    pose proof (parent_lt _ H0).
    rewrite (decide_False (P := parent (parent pos) = pos)) by lia.
    intros Hpa. destruct (decide (c = pos)) as [->|Hne].
    + intros [= <-]. by apply Hroot.
    + intros Hcb. etrans; [by apply Hroot|]. by eapply Hsib.
  - intros c b Hc0 Hpar. rewrite lookup_insert_hole by done.
    destruct (decide (c = pos)) as [->|Hne].
    + intros [= <-]. lia.
    + intros Hcb. pose proof (Hsib c b Hc0 Hne Hpar Hcb). lia.
Qed.

Lemma _siftdown_loop_heap_ok fuel (h : list A) pos newitem :
  (pos <= fuel)%nat -> (pos < length h)%nat ->
  hole_ok h pos -> below_children newitem h pos ->
  heap_ok (heapq._siftdown_loop lt fuel h 0 pos newitem).
Proof.
  revert h pos. induction fuel as [|fuel IH]; intros h pos Hfuel Hpos Hhole Hbelow.
  { apply fill_hole; [done..|lia]. }
  rewrite _siftdown_loop_S.
  case_bool_decide as Hlt; [|apply fill_hole; [done..|lia]].
  destruct (h !! parent pos) as [p|] eqn:Hp;
    [|apply fill_hole; [done..|intros; congruence]].
  case_bool_decide as Hnew.
  - pose proof (parent_lt pos Hlt).
    destruct (hole_up h pos newitem p) as [Hhole' Hbelow']; [done..|].
    apply IH; [lia|rewrite length_insert; lia|done..].
  - apply fill_hole; [done..|]. intros _ p' Hp'. simplify_eq. lia.
Qed.

Lemma hole_ok_insert (h : list A) pos v :
  hole_ok h pos -> hole_ok (<[pos := v]> h) pos.
Proof.
  intros [Ha Hb]. split.
  - intros j Hj Hne Hnp a b.
    rewrite !list_lookup_insert_ne by done. by apply Ha.
  - intros c Hpos Hc Hpar a b.
    pose proof (parent_lt pos Hpos). pose proof (parent_lt c Hc).
    rewrite !list_lookup_insert_ne by lia. by apply Hb.
Qed.

Lemma _siftdown_heap_ok (h : list A) pos newitem :
  (pos < length h)%nat -> hole_ok h pos -> below_children newitem h pos ->
  heap_ok (heapq._siftdown lt (<[pos := newitem]> h) 0 pos).
Proof.
  intros Hpos Hhole Hbelow. unfold heapq._siftdown.
  rewrite list_lookup_insert_eq by done.
  apply _siftdown_loop_heap_ok; [done|by rewrite length_insert| |].
  - by apply hole_ok_insert.
  - intros c b Hc Hpar. pose proof (parent_lt c Hc).
    rewrite list_lookup_insert_ne by lia. by apply Hbelow.
Qed.

Lemma heap_ok_hole (h : list A) pos : heap_ok h -> hole_ok h pos.
Proof.
  intros Hh. split.
  - intros j Hj _ _. by apply Hh.
  - intros c Hpos Hc Hpar a b Ha Hb.
    destruct (h !! pos) as [m|] eqn:Hm.
    + etrans; [by apply (Hh pos Hpos a m)|].
      apply (Hh c Hc m b); [by rewrite Hpar|done].
    + apply lookup_ge_None in Hm. apply lookup_lt_Some in Hb.
      pose proof (parent_lt c Hc). lia.
Qed.

Lemma heappush_heap_ok (h : list A) item :
  heap_ok h -> heap_ok (heapq.heappush lt h item).
Proof.
  intros Hh. unfold heapq.heappush.
  replace (length (h ++ [item]) - 1)%nat with (length h)
    by (rewrite length_app; simpl; lia).
  assert (Hins : h ++ [item] = <[length h := item]> (h ++ [item])).
  { symmetry. apply list_insert_id. by apply list_lookup_middle. }
  rewrite Hins. apply _siftdown_heap_ok.
  - rewrite length_app. simpl. lia.
  - split.
    + intros j Hj Hne Hnp a b Ha Hb.
      pose proof (parent_lt j Hj).
      assert (j < length h)%nat.
      { apply lookup_lt_Some in Hb. rewrite length_app in Hb. simpl in Hb. lia. }
      rewrite lookup_app_l in Ha, Hb by lia. by apply (Hh j).
    + intros c Hpos Hc Hpar a b Ha Hb.
      apply lookup_lt_Some in Hb. rewrite length_app in Hb. simpl in Hb.
      pose proof (parent_lt c Hc). lia.
  - intros c b Hc Hpar Hb.
    apply lookup_lt_Some in Hb. rewrite length_app in Hb. simpl in Hb.
    pose proof (parent_lt c Hc). lia.
Qed.

Lemma smaller_child_lookup (h : list A) endpos pos :
  (2 * pos + 1 < length h)%nat -> is_Some (h !! smaller_child h endpos pos).
Proof.
  intros Hlt. unfold heapq_spec.smaller_child.
  destruct (h !! (2 * pos + 1)%nat) as [l|] eqn:Hl.
  - destruct (h !! (2 * pos + 1 + 1)%nat) as [r|] eqn:Hr; [|by rewrite Hl].
    case_match; [by rewrite Hr|by rewrite Hl].
  - apply lookup_ge_None in Hl. lia.
Qed.

Lemma smaller_child_le (h : list A) pos cv j b :
  h !! smaller_child h (length h) pos = Some cv ->
  (j = 2 * pos + 1 \/ j = 2 * pos + 1 + 1)%nat -> h !! j = Some b ->
  key cv <= key b.
Proof.
  unfold heapq_spec.smaller_child. intros Hcv Hj Hjb.
  destruct (h !! (2 * pos + 1)%nat) as [l|] eqn:Hl;
    destruct (h !! (2 * pos + 1 + 1)%nat) as [r|] eqn:Hr;
    [|destruct Hj as [-> | ->]; simplify_eq; lia..].
  pose proof (lookup_lt_Some _ _ _ Hr) as Hlen.
  rewrite bool_decide_eq_true_2 in Hcv by done. cbn [andb] in Hcv.
  case_bool_decide as Hlt; cbn [negb] in Hcv;
    destruct Hj as [-> | ->]; simplify_eq; lia.
Qed.

Lemma hole_down (h : list A) pos cv :
  (pos < length h)%nat -> hole_ok h pos ->
  h !! smaller_child h (length h) pos = Some cv ->
  hole_ok (<[pos := cv]> h) (smaller_child h (length h) pos).
Proof.
  intros Hpos [Ha Hb] Hcv.
  assert (Hsib : forall j b, (j = 2 * pos + 1 \/ j = 2 * pos + 1 + 1)%nat ->
                 h !! j = Some b -> key cv <= key b).
  { intros j b. by apply smaller_child_le. }
  pose proof (smaller_child_cases h (length h) pos) as Hcases.
  set (c := smaller_child h (length h) pos) in *.
  assert (Hpc : parent c = pos).
  { destruct Hcases as [-> | ->]; [apply parent_left|apply parent_right]. }
  assert (Hc0 : (0 < c)%nat) by lia.
  split.
  - intros j Hj Hne Hnp a b. rewrite !lookup_insert_hole by done.
    pose proof (parent_lt j Hj).
    destruct (decide (j = pos)) as [->|Hnpos].
    + rewrite decide_False by lia. intros Hpa [= <-].
      by apply (Hb c Hj Hc0 Hpc).
    + destruct (decide (parent j = pos)) as [Hpar|Hnpar].
      * intros [= <-] Hjb. apply (Hsib j); [|done]. by apply parent_child.
      * by apply Ha.
  - intros c' _ Hc' Hpar a b. rewrite !lookup_insert_hole by done.
    pose proof (parent_lt c' Hc').
    rewrite Hpc, decide_True by done. rewrite decide_False by lia.
    intros [= <-] Hb'. apply (Ha c'); [done|lia|lia| |done].
    by rewrite Hpar.
Qed.

Lemma _siftup_loop_hole_ok fuel (h : list A) pos h' pos' :
  (pos < length h)%nat -> (length h <= fuel + pos)%nat -> hole_ok h pos ->
  heapq._siftup_loop lt fuel h (length h) pos = (h', pos') ->
  hole_ok h' pos' /\ (pos' < length h')%nat /\ (length h' <= 2 * pos' + 1)%nat.
Proof.
  revert h pos. induction fuel as [|fuel IH]; intros h pos Hpos Hfuel Hhole.
  { intros [= <- <-]. split; [done|lia]. }
  rewrite _siftup_loop_S.
  case_bool_decide as Hlt; [|intros [= <- <-]; split; [done|lia]].
  destruct (smaller_child_lookup h (length h) pos Hlt) as [cv Hcv].
  rewrite Hcv.
  pose proof (smaller_child_cases h (length h) pos) as Hcases.
  pose proof (lookup_lt_Some _ _ _ Hcv) as Hclen.
  rewrite <- (length_insert h pos cv) at 1.
  intros Hloop. apply IH in Hloop; [done| | |].
  - by rewrite length_insert.
  - rewrite length_insert. lia.
  - by apply hole_down.
Qed.

Lemma _siftup_heap_ok (h : list A) : hole_ok h 0 -> heap_ok (heapq._siftup lt h 0).
Proof.
  intros Hhole. unfold heapq._siftup.
  destruct (h !! 0%nat) as [newitem|] eqn:H0.
  2:{ apply lookup_ge_None in H0. intros j Hj a b Ha.
      apply lookup_lt_Some in Ha. lia. }
  destruct (heapq._siftup_loop lt (length h) h (length h) 0) as [h' pos'] eqn:Hloop.
  apply _siftup_loop_hole_ok in Hloop as (Hhole' & Hpos' & Hleaf);
    [|by eapply lookup_lt_Some|lia|done].
  apply _siftdown_heap_ok; [done..|].
  intros c b Hc Hpar Hb. apply lookup_lt_Some in Hb.
  destruct (parent_child c pos' Hc Hpar); lia.
Qed.

Lemma heap_ok_root_min (h : list A) r :
  heap_ok h -> h !! 0%nat = Some r -> forall y, y ∈ h -> key r <= key y.
Proof.
  intros Hh Hr y [j Hj]%list_elem_of_lookup. revert y Hj.
  induction (lt_wf j) as [j _ IH]. intros y Hj.
  destruct (decide (j = 0%nat)) as [->|Hne]; [simplify_eq; lia|].
  assert (H0 : (0 < j)%nat) by lia.
  pose proof (parent_lt j H0) as Hpj.
  destruct (h !! parent j) as [p|] eqn:Hp.
  - etrans; [by apply (IH (parent j))|]. by apply (Hh j H0).
  - apply lookup_ge_None in Hp. apply lookup_lt_Some in Hj. lia.
Qed.

Lemma heap_ok_snoc (h : list A) a : heap_ok (h ++ [a]) -> heap_ok h.
Proof.
  intros Hh j Hj x y Hx Hy. apply (Hh j Hj); by apply lookup_app_l_Some.
Qed.

Lemma heap_ok_nil : heap_ok (@nil A).
Proof. intros j Hj a b Ha. done. Qed.

Lemma heappop_heap_ok (h : list A) item h' :
  heap_ok h -> heapq.heappop lt h = Ok (item, h') ->
  heap_ok h' /\ forall y, y ∈ h -> key item <= key y.
Proof.
  intros Hh. unfold heapq.heappop.
  destruct (heapq.list_pop h) as [[lastelt h0]|e] eqn:Hpop; [|done].
  apply list_pop_Ok in Hpop as ->. simpl.
  destruct h0 as [|r h0]; simpl.
  - intros [= <- <-]. split; [apply heap_ok_nil|].
    intros y ->%list_elem_of_singleton. lia.
  - intros [= <- <-]. split.
    + apply _siftup_heap_ok. apply heap_ok_snoc in Hh.
      apply (hole_ok_insert (r :: h0) 0 lastelt). by apply heap_ok_hole.
    + by apply heap_ok_root_min.
Qed.
End heapq_facts.

(** * Facts about dictionaries and paths *)


Lemma dict_get_Some {V} (d : list (string * V)) k v :
  dict_get d k = Some v -> (k, v) ∈ d.
Proof.
  induction d as [|[k' v'] d IH]; simpl; [done|].
  case_decide as Hk.
  - intros [= <-]. subst. apply list_elem_of_here.
  - intros Hd. apply list_elem_of_further. by apply IH.
Qed.

Lemma dict_get_elem_of {V} (d : list (string * V)) k v :
  NoDup d.*1 -> (k, v) ∈ d -> dict_get d k = Some v.
Proof.
  induction d as [|[k' v'] d IH]; simpl.
  - by intros _ ?%not_elem_of_nil.
  - intros [Hk' Hd]%NoDup_cons [Heq|Hin]%elem_of_cons.
    + simplify_eq. by rewrite decide_True.
    + rewrite decide_False; [by apply IH|].
      intros ->. apply Hk'. apply list_elem_of_fmap. by exists (k, v).
Qed.

Section path_facts.
Variable transitions : list (string * Transition).

Lemma follow_app s p q :
  follow transitions s (p ++ q) =
  s' ← follow transitions s p; follow transitions s' q.
Proof.
  revert s. induction p as [|name p IH]; intros s; simpl; [done|].
  destruct (apply_transition transitions s name) as [s'|]; simpl; [apply IH|done].
Qed.

Lemma follow_snoc s p name :
  follow transitions s (p ++ [name]) =
  s' ← follow transitions s p; apply_transition transitions s' name.
Proof.
  rewrite follow_app. destruct (follow transitions s p) as [s'|]; simpl; [|done].
  by destruct (apply_transition transitions s' name).
Qed.

Lemma apply_transition_Some s name s' :
  apply_transition transitions s name = Some s' ->
  exists transition, (name, transition) ∈ transitions /\ transition s = Ok s'.
Proof.
  unfold apply_transition.
  destruct (dict_get transitions name) as [t|] eqn:Ht; simpl; [|done].
  destruct (t s) as [s''|] eqn:Hts; [|done]. intros [= <-].
  exists t. split; [by apply dict_get_Some|done].
Qed.

Lemma apply_transition_elem_of s name transition s' :
  NoDup transitions.*1 -> (name, transition) ∈ transitions ->
  transition s = Ok s' -> apply_transition transitions s name = Some s'.
Proof.
  intros Hnd Hin Hts. unfold apply_transition.
  rewrite (dict_get_elem_of _ _ _ Hnd Hin). simpl. by rewrite Hts.
Qed.

Lemma follow_keys s p s' :
  follow transitions s p = Some s' -> Forall (fun name => name ∈ transitions.*1) p.
Proof.
  revert s. induction p as [|name p IH]; intros s; simpl; [by constructor|].
  destruct (apply_transition transitions s name) as [s1|] eqn:Hs1; simpl; [|done].
  intros Hp. constructor; [|by eapply IH].
  apply apply_transition_Some in Hs1 as (t & Hin & _).
  apply list_elem_of_fmap. by exists (name, t).
Qed.

Lemma reachable_init init_state : reachable transitions init_state init_state.
Proof. by exists []. Qed.

Lemma reachable_step init_state s name transition s' :
  NoDup transitions.*1 ->
  reachable transitions init_state s -> (name, transition) ∈ transitions ->
  transition s = Ok s' -> reachable transitions init_state s'.
Proof.
  intros Hnd [p Hp] Hin Hts. exists (p ++ [name]).
  rewrite follow_snoc, Hp. simpl. by eapply apply_transition_elem_of.
Qed.
End path_facts.


(** * The search loop *)

Lemma exc_bind_Ok {A B} (m : Exc A) (k : A -> Exc B) b :
  (m ≫= k) = Ok b <-> exists a, m = Ok a /\ k a = Ok b.
Proof.
  destruct m as [a|e]; simpl; split.
  - intros Hk. by exists a.
  - by intros (a' & [= <-] & Hk).
  - done.
  - by intros (a' & [=] & _).
Qed.

Lemma exc_bind_Raise {A B} (m : Exc A) (k : A -> Exc B) e :
  (m ≫= k) = Raise e <-> m = Raise e \/ exists a, m = Ok a /\ k a = Raise e.
Proof.
  destruct m as [a|e']; simpl; split.
  - intros Hk. right. by exists a.
  - by intros [[=]|(a' & [= <-] & Hk)].
  - intros [= <-]. by left.
  - by intros [[= <-]|(a' & [=] & _)].
Qed.

Section heapnode_heap.
Implicit Types (f : list heapnode) (n m : heapnode).

Local Abbreviation frontier_ok := search_spec.frontier_ok.

Lemma heappush_perm f n : heappush f n ≡ₚ n :: f.
Proof. exact (heappush_Permutation heapnode.cost f n). Qed.

Lemma heappush_elem_of f n m : m ∈ heappush f n <-> m = n \/ m ∈ f.
Proof. rewrite heappush_perm. apply elem_of_cons. Qed.

Lemma heappush_length f n : length (heappush f n) = S (length f).
Proof. by rewrite heappush_perm. Qed.

Lemma heappush_ok f n : frontier_ok f -> frontier_ok (heappush f n).
Proof. exact (heappush_heap_ok heapnode.cost f n). Qed.

Lemma heappop_perm f n f' : heappop f = Ok (n, f') -> f ≡ₚ n :: f'.
Proof. exact (heappop_Permutation heapnode.cost f n f'). Qed.

Lemma heappop_ok f n f' :
  frontier_ok f -> heappop f = Ok (n, f') ->
  frontier_ok f' /\ forall m, m ∈ f -> heapnode.cost n <= heapnode.cost m.
Proof. exact (heappop_heap_ok heapnode.cost f n f'). Qed.

Lemma heappop_Ok f :
  (0 < length f)%nat -> exists n f', heappop f = Ok (n, f').
Proof. exact (heappop_nonempty heapnode.cost f). Qed.
End heapnode_heap.

Section search_facts.
Variable init_state : State.
Variable transitions : list (string * Transition).
Variable success : State -> bool.
Variable cost : Path -> Z.

Implicit Types (v : gmap State Path) (f : list heapnode) (node : heapnode).
Implicit Types (s : State) (p q : Path) (name : string).

Local Abbreviation frontier_ok := search_spec.frontier_ok.
Local Abbreviation new_node := (search_spec.new_node cost).
Local Abbreviation search_inv :=
  (search_spec.search_inv init_state transitions success cost).
Local Abbreviation finishes := (search_spec.finishes transitions success cost).
Local Abbreviation opt_inv := (search_spec.opt_inv init_state transitions cost).
Local Abbreviation inv_heap := search_spec.inv_heap.
Local Abbreviation inv_node := search_spec.inv_node.
Local Abbreviation inv_visited := search_spec.inv_visited.
Local Abbreviation inv_expanded := search_spec.inv_expanded.
Local Abbreviation inv_init := search_spec.inv_init.

Lemma expand_one_Ok v node f name transition f' :
  expand_one cost v node f (name, transition) = Ok f' ->
  exists s', transition (heapnode.state node) = Ok s'
    /\ ((is_Some (v !! s') /\ f' = f)
        \/ (v !! s' = None /\ f' = heappush f (new_node node name s'))).
Proof.
  unfold expand_one. intros (s' & Hs' & Hf')%exc_bind_Ok. exists s'.
  split; [done|]. destruct (v !! s') as [p|] eqn:Hv; simplify_eq; eauto.
Qed.

Lemma expand_fold_Ok v node ts f f' :
  exc_foldl (expand_one cost v node) f ts = Ok f' ->
  (frontier_ok f -> frontier_ok f')
  /\ (length f' <= length f + length ts)%nat
  /\ (forall n, n ∈ f -> n ∈ f')
  /\ (forall n, n ∈ f' -> n ∈ f \/
        exists name transition s',
          (name, transition) ∈ ts /\ transition (heapnode.state node) = Ok s'
          /\ v !! s' = None /\ n = new_node node name s')
  /\ (forall name transition, (name, transition) ∈ ts ->
        exists s', transition (heapnode.state node) = Ok s'
          /\ (is_Some (v !! s') \/ new_node node name s' ∈ f')).
Proof.
  revert f. induction ts as [|[name t] ts IH]; intros f; simpl.
  { intros [= <-]. split_and!; [done|lia|done|by left|].
    by intros ?? ?%elem_of_nil. }
  intros (f1 & Hone & Hfold)%exc_bind_Ok.
  apply expand_one_Ok in Hone as (s' & Hs' & Hone).
  apply IH in Hfold as (Hok & Hlen & Hkeep & Hnew & Hall).
  assert (Hf1 : forall n, n ∈ f1 <-> n ∈ f \/ (v !! s' = None /\ n = new_node node name s')).
  { intros n. destruct Hone as [[Hsome ->]|[Hv ->]].
    - split; [by left|]. intros [?|[Hv _]]; [done|].
      rewrite Hv in Hsome. by destruct Hsome.
    - rewrite heappush_elem_of. split.
      + intros [->|?]; [by right|by left].
      + intros [?|[_ ->]]; [by right|by left]. }
  split_and!.
  - intros Hf. apply Hok. destruct Hone as [[_ ->]|[_ ->]]; [done|].
    by apply heappush_ok.
  - destruct Hone as [[_ ->]|[_ ->]]; [lia|]. rewrite heappush_length in Hlen. lia.
  - intros n Hn. apply Hkeep, Hf1. by left.
  - intros n [Hn|(name' & t' & s1 & Hin & Hrest)]%Hnew.
    + apply Hf1 in Hn as [Hn|[Hv ->]]; [by left|]. right.
      exists name, t, s'. split; [apply list_elem_of_here|done].
    + right. exists name', t', s1. split; [by apply list_elem_of_further|done].
  - intros name' t' [[= -> ->]|Hin]%elem_of_cons; [|by apply Hall].
    exists s'. split; [done|].
    destruct Hone as [[Hv _]|[Hv ->]]; [by left|]. right.
    apply Hkeep, heappush_elem_of. by left.
Qed.

Lemma expand_fold_Raise v node ts f e :
  exc_foldl (expand_one cost v node) f ts = Raise e ->
  exists name transition,
    (name, transition) ∈ ts /\ transition (heapnode.state node) = Raise e.
Proof.
  revert f. induction ts as [|[name t] ts IH]; intros f; simpl; [done|].
  intros [Hone|(f1 & _ & Hfold)]%exc_bind_Raise.
  - exists name, t. split; [apply list_elem_of_here|].
    unfold expand_one in Hone.
    apply exc_bind_Raise in Hone as [Hone|(s' & _ & Hone)]; [done|].
    by destruct (v !! s').
  - apply IH in Hfold as (name' & t' & Hin & Ht').
    exists name', t'. split; [by apply list_elem_of_further|done].
Qed.

Lemma expand_fold_total v node ts f :
  (forall name transition, (name, transition) ∈ ts ->
     exists s', transition (heapnode.state node) = Ok s') ->
  exists f', exc_foldl (expand_one cost v node) f ts = Ok f'.
Proof.
  intros Hts. destruct (exc_foldl (expand_one cost v node) f ts) as [f'|e] eqn:Hf;
    [by exists f'|].
  apply expand_fold_Raise in Hf as (name & t & Hin & Ht).
  destruct (Hts name t Hin) as [s' Hs']. congruence.
Qed.

(** The three ways an iteration of the loop can complete. *)
Lemma loop_body_Ok v f c :
  loop_body transitions success cost v f = Ok c ->
  exists node f1, heappop f = Ok (node, f1) /\
    ((is_Some (v !! heapnode.state node) /\ c = Continue v f1)
     \/ (v !! heapnode.state node = None
         /\ success (heapnode.state node) = true
         /\ c = ReturnPath (heapnode.path node))
     \/ (v !! heapnode.state node = None
         /\ success (heapnode.state node) = false
         /\ exists f2,
              expand transitions cost
                     (<[heapnode.state node := heapnode.path node]> v) node f1 = Ok f2
              /\ c = Continue (<[heapnode.state node := heapnode.path node]> v) f2)).
Proof.
  unfold loop_body. intros ([node f1] & Hpop & Hbody)%exc_bind_Ok.
  exists node, f1. split; [done|].
  destruct (v !! heapnode.state node) as [p|] eqn:Hv.
  - left. by simplify_eq.
  - right. destruct (success (heapnode.state node)) eqn:Hs.
    + left. by simplify_eq.
    + right. split_and!; [done..|].
      apply exc_bind_Ok in Hbody as (f2 & Hexp & [= <-]). by exists f2.
Qed.

Lemma loop_body_Raise v f e :
  (0 < length f)%nat ->
  loop_body transitions success cost v f = Raise e ->
  exists node f1, heappop f = Ok (node, f1)
    /\ v !! heapnode.state node = None
    /\ success (heapnode.state node) = false
    /\ exists name transition,
         (name, transition) ∈ transitions
         /\ transition (heapnode.state node) = Raise e.
Proof.
  intros Hlen. unfold loop_body.
  destruct (heappop_Ok f Hlen) as (node & f1 & Hpop). rewrite Hpop. simpl.
  intros Hbody. exists node, f1. split; [done|].
  destruct (v !! heapnode.state node) as [p|] eqn:Hv; [done|].
  destruct (success (heapnode.state node)) eqn:Hs; [done|].
  split_and!; [done..|].
  apply exc_bind_Raise in Hbody as [Hexp|(f2 & _ & [=])].
  by apply expand_fold_Raise in Hexp.
Qed.

(** *** The invariant *)

Hypothesis transitions_NoDup : NoDup transitions.*1.

Lemma initial_frontier_eq :
  initial_frontier init_state cost = [heapnode.__init__ init_state [] (cost [])].
Proof. reflexivity. Qed.

Lemma search_inv_initial : search_inv ∅ (initial_frontier init_state cost).
Proof.
  rewrite initial_frontier_eq. split.
  - intros j Hj a b Ha Hb. apply lookup_lt_Some in Hb. simpl in Hb.
    pose proof (parent_lt j Hj). lia.
  - by intros n ->%list_elem_of_singleton.
  - intros s p Hs. by rewrite lookup_empty in Hs.
  - intros s p name t Hs. by rewrite lookup_empty in Hs.
  - right. by apply list_elem_of_singleton.
Qed.

Lemma search_inv_skip v f node f1 :
  search_inv v f -> heappop f = Ok (node, f1) ->
  is_Some (v !! heapnode.state node) -> search_inv v f1.
Proof.
  intros [Hheap Hnode Hvis Hexp Hinit] Hpop Hsome.
  pose proof (heappop_perm _ _ _ Hpop) as Hperm.
  assert (Hsplit : forall n, n ∈ f -> n = node \/ n ∈ f1).
  { intros n. rewrite Hperm. apply elem_of_cons. }
  split.
  - by apply (heappop_ok f node f1).
  - intros n Hn. apply Hnode. rewrite Hperm. by apply list_elem_of_further.
  - done.
  - intros s p name t Hs Hin.
    destruct (Hexp s p name t Hs Hin) as (s' & Hs' & [Hv|Hf]); exists s';
      (split; [done|]); [by left|].
    apply Hsplit in Hf as [<-|Hf]; [by left|by right].
  - destruct Hinit as [Hv|Hf]; [by left|].
    apply Hsplit in Hf as [<-|Hf]; [by left|by right].
Qed.

Lemma search_inv_expand v f node f1 f2 :
  search_inv v f -> heappop f = Ok (node, f1) ->
  v !! heapnode.state node = None -> success (heapnode.state node) = false ->
  expand transitions cost (<[heapnode.state node := heapnode.path node]> v) node f1
    = Ok f2 ->
  search_inv (<[heapnode.state node := heapnode.path node]> v) f2.
Proof.
  intros [Hheap Hnode Hvis Hexp Hinit] Hpop Hnone Hfail Hf2.
  pose proof (heappop_perm _ _ _ Hpop) as Hperm.
  assert (Hsplit : forall n, n ∈ f -> n = node \/ n ∈ f1).
  { intros n. rewrite Hperm. apply elem_of_cons. }
  assert (Hin1 : forall n, n ∈ f1 -> n ∈ f).
  { intros n Hn. rewrite Hperm. by apply list_elem_of_further. }
  assert (Hnode0 : node ∈ f).
  { rewrite Hperm. apply list_elem_of_here. }
  apply expand_fold_Ok in Hf2 as (Hok & _ & Hkeep & Hnew & Hall).
  set (v' := <[heapnode.state node := heapnode.path node]> v) in *.
  assert (Hmono : forall s, is_Some (v !! s) -> is_Some (v' !! s)).
  { intros s [p Hp]. unfold v'.
    destruct (decide (heapnode.state node = s)) as [<-|Hne]; [congruence|].
    rewrite lookup_insert_ne by done. by exists p. }
  assert (Hself : is_Some (v' !! heapnode.state node)).
  { unfold v'. rewrite lookup_insert_eq. by eexists. }
  assert (Hold : forall n, n ∈ f ->
            is_Some (v' !! heapnode.state n) \/ n ∈ f2).
  { intros n [->|Hn]%Hsplit; [by left|right; by apply Hkeep]. }
  split.
  - apply Hok. by apply (heappop_ok f node f1).
  - intros n [Hn|(name & t & s' & Hin & Hs' & _ & ->)]%Hnew; [by apply Hnode, Hin1|].
    simpl. split; [|done].
    rewrite follow_snoc. destruct (Hnode node Hnode0) as [-> _]. simpl.
    by eapply apply_transition_elem_of.
  - intros s p. unfold v'.
    destruct (decide (heapnode.state node = s)) as [<-|Hne].
    + rewrite lookup_insert_eq. intros [= <-].
      split; [by apply Hnode|done].
    + rewrite lookup_insert_ne by done. apply Hvis.
  - intros s p name t. unfold v' at 1.
    destruct (decide (heapnode.state node = s)) as [<-|Hne].
    + rewrite lookup_insert_eq. intros [= <-] Hin. by apply Hall.
    + rewrite lookup_insert_ne by done. intros Hs Hin.
      destruct (Hexp s p name t Hs Hin) as (s' & Hs' & [Hv|Hf]); exists s';
        (split; [done|]); [left; by apply Hmono|].
      by apply Hold in Hf.
  - destruct Hinit as [Hv|Hf]; [left; by apply Hmono|]. by apply Hold in Hf.
Qed.

(** One iteration that continues keeps the invariant. *)
Lemma search_inv_step v f v' f' :
  search_inv v f ->
  loop_body transitions success cost v f = Ok (Continue v' f') ->
  search_inv v' f'.
Proof.
  intros Hinv (node & f1 & Hpop & Hcases)%loop_body_Ok.
  destruct Hcases
    as [[Hsome [= -> ->]]|[(_ & _ & [=])|(Hnone & Hfail & f2 & Hf2 & [= -> ->])]].
  - by eapply search_inv_skip.
  - by eapply search_inv_expand.
Qed.

(** *** Runs of the loop *)

Local Abbreviation run' := (run init_state transitions success cost).
Local Abbreviation loop_body' := (loop_body transitions success cost).
Local Abbreviation while_loop' := (while_loop transitions success cost).

Lemma run_S_Some n v' f' :
  run' (S n) = Some (v', f') <->
  exists v f, run' n = Some (v, f) /\ (0 < length f)%nat
              /\ loop_body' v f = Ok (Continue v' f').
Proof.
  simpl. split.
  - destruct (run' n) as [[v f]|]; [|done].
    case_bool_decide as Hlen; [|done].
    destruct (loop_body' v f) as [[v1 f1|p]|e] eqn:Hbody; [|done..].
    intros [= <- <-]. by exists v, f.
  - intros (v & f & -> & Hlen & Hbody).
    by rewrite bool_decide_eq_true_2, Hbody.
Qed.

Lemma run_search_inv n v f : run' n = Some (v, f) -> search_inv v f.
Proof.
  revert v f. induction n as [|n IH]; intros v f.
  - intros [= <- <-]. apply search_inv_initial.
  - intros (v0 & f0 & Hrun & _ & Hbody)%run_S_Some.
    eapply search_inv_step; [by apply IH|done].
Qed.

Lemma while_loop_finishes fuel k v f r :
  run' k = Some (v, f) -> while_loop' fuel v f = r -> r <> OutOfFuel ->
  exists n v1 f1, (k <= n < k + fuel)%nat /\ run' n = Some (v1, f1)
                  /\ finishes v1 f1 r.
Proof.
  revert k v f. induction fuel as [|fuel IH]; intros k v f Hrun; simpl.
  { by intros <-. }
  case_bool_decide as Hlen.
  - destruct (loop_body' v f) as [[v1 f1|p]|e] eqn:Hbody.
    + intros Hr Hne.
      destruct (IH (S k) v1 f1) with (1 := proj2 (run_S_Some k v1 f1)
        (ex_intro _ v (ex_intro _ f (conj Hrun (conj Hlen Hbody))))) (2 := Hr)
        as (n & v2 & f2 & Hn & Hrun2 & Hfin); [done|].
      exists n, v2, f2. split; [lia|done].
    + intros <- _. exists k, v, f. split; [lia|]. split; [done|].
      right. split; [done|]. left. by exists p.
    + intros <- _. exists k, v, f. split; [lia|]. split; [done|].
      right. split; [done|]. right. by exists e.
  - intros <- _. exists k, v, f. split; [lia|]. split; [done|].
    left. split; [|done]. destruct f; [done|simpl in Hlen; lia].
Qed.

Lemma search_finishes fuel r :
  state_search_via_dijkstras init_state transitions success cost fuel = r ->
  r <> OutOfFuel ->
  exists n v f, (n < fuel)%nat /\ run' n = Some (v, f) /\ finishes v f r.
Proof.
  intros Hr Hne.
  destruct (while_loop_finishes fuel 0 ∅ (initial_frontier init_state cost) r)
    as (n & v & f & Hn & Hrun & Hfin); [done..|].
  exists n, v, f. split; [lia|done].
Qed.

Lemma while_loop_S fuel v f :
  while_loop' (S fuel) v f =
  if bool_decide (0 < length f)%nat then
    match loop_body' v f with
    | Ok (Continue v' f') => while_loop' fuel v' f'
    | Ok (ReturnPath p) => Return p
    | Raise e => Raised e
    end
  else Raised no_solution_found.
Proof. reflexivity. Qed.

(** More fuel does not change an outcome that was reached. *)
Lemma while_loop_fuel_mono fuel fuel' v f r :
  while_loop' fuel v f = r -> r <> OutOfFuel -> (fuel <= fuel')%nat ->
  while_loop' fuel' v f = r.
Proof.
  revert fuel' v f. induction fuel as [|fuel IH]; intros fuel' v f; simpl.
  { by intros <-. }
  intros Hr Hne Hle. destruct fuel' as [|fuel']; [lia|]. simpl.
  case_bool_decide; [|done].
  destruct (loop_body' v f) as [[v1 f1|p]|e]; [|done..].
  apply IH; [done..|lia].
Qed.

(** *** Soundness of a returned path and of the no-solution signal *)

Lemma Return_sound n v f p :
  run' n = Some (v, f) -> loop_body' v f = Ok (ReturnPath p) ->
  exists node f1 s,
    heappop f = Ok (node, f1) /\ p = heapnode.path node
    /\ s = heapnode.state node /\ v !! s = None
    /\ follow transitions init_state p = Some s /\ success s = true.
Proof.
  intros Hinv%run_search_inv (node & f1 & Hpop & Hcases)%loop_body_Ok.
  destruct Hcases as [[_ [=]]|[(Hnone & Hs & [= ->])|(_ & _ & f2 & _ & [=])]].
  exists node, f1, (heapnode.state node). split_and!; [done..| |done].
  apply (inv_node _ _ Hinv). rewrite (heappop_perm _ _ _ Hpop).
  apply list_elem_of_here.
Qed.

(** With an empty frontier every reachable state has been visited. *)
Lemma exhausted_closed v s :
  search_inv v [] -> reachable transitions init_state s -> is_Some (v !! s).
Proof.
  intros Hinv [p Hp]. revert s Hp.
  induction p as [|name p IH] using rev_ind; intros s.
  - intros [= <-]. destruct (inv_init _ _ Hinv) as [?|?%elem_of_nil]; done.
  - rewrite follow_snoc.
    destruct (follow transitions init_state p) as [s0|] eqn:Hs0; [|done]. simpl.
    intros (t & Hin & Hts)%apply_transition_Some.
    destruct (IH s0 eq_refl) as [p0 Hp0].
    destruct (inv_expanded _ _ Hinv s0 p0 name t Hp0 Hin)
      as (s' & Hs' & [Hv|?%elem_of_nil]); [|done].
    congruence.
Qed.

Lemma exhausted_no_success v s :
  search_inv v [] -> reachable transitions init_state s -> success s = false.
Proof.
  intros Hinv Hs. destruct (exhausted_closed v s Hinv Hs) as [p Hp].
  by apply (inv_visited _ _ Hinv s p).
Qed.

(** *** Optimality *)

Section optimality.
(** The cost never decreases when a path is extended, and extending two
    paths to the same state by the same transition keeps their order. *)
Hypothesis cost_monotone : forall p name, cost p <= cost (p ++ [name]).
Hypothesis cost_extension : forall p q name s,
  follow transitions init_state p = Some s ->
  follow transitions init_state q = Some s ->
  cost p <= cost q -> cost (p ++ [name]) <= cost (q ++ [name]).

Lemma frontier_bound v f q s :
  search_inv v f -> opt_inv v ->
  follow transitions init_state q = Some s -> v !! s = None ->
  exists n, n ∈ f /\ heapnode.cost n <= cost q.
Proof.
  intros Hinv Hopt. revert s.
  induction q as [|name q IH] using rev_ind; intros s.
  - intros [= <-] Hnone.
    destruct (inv_init _ _ Hinv) as [[p Hp]|Hin]; [congruence|].
    eexists. split; [done|]. simpl. lia.
  - rewrite follow_snoc.
    destruct (follow transitions init_state q) as [s0|] eqn:Hs0; [|done]. simpl.
    intros (t & Hin & Hts)%apply_transition_Some Hnone.
    destruct (v !! s0) as [p0|] eqn:Hp0.
    + destruct (inv_expanded _ _ Hinv s0 p0 name t Hp0 Hin)
        as (s' & Hs' & [[p' Hp']|Hf]); [congruence|].
      eexists. split; [done|]. simpl.
      apply (cost_extension p0 q name s0); [|done|by eapply Hopt].
      by apply (inv_visited _ _ Hinv).
    + destruct (IH s0 eq_refl Hp0) as (n & Hn & Hle).
      exists n. split; [done|]. pose proof (cost_monotone q name). lia.
Qed.

Lemma popped_optimal v f node f1 q s :
  search_inv v f -> opt_inv v -> heappop f = Ok (node, f1) ->
  follow transitions init_state q = Some s -> v !! s = None ->
  cost (heapnode.path node) <= cost q.
Proof.
  intros Hinv Hopt Hpop Hq Hnone.
  destruct (frontier_bound v f q s Hinv Hopt Hq Hnone) as (n & Hn & Hle).
  destruct (heappop_ok f node f1 (inv_heap _ _ Hinv) Hpop) as [_ Hmin].
  assert (Hnode : node ∈ f).
  { rewrite (heappop_perm _ _ _ Hpop). apply list_elem_of_here. }
  destruct (inv_node _ _ Hinv node Hnode) as [_ <-].
  specialize (Hmin n Hn). lia.
Qed.

Lemma run_opt_inv (n : nat) v f : run' n = Some (v, f) -> opt_inv v.
Proof.
  revert v f. induction n as [|n IH]; intros v f.
  - intros [= <- <-] s p q Hs. by rewrite lookup_empty in Hs.
  - intros (v0 & f0 & Hrun & _ & Hbody)%run_S_Some.
    pose proof (run_search_inv _ _ _ Hrun) as Hinv.
    specialize (IH _ _ Hrun).
    apply loop_body_Ok in Hbody as (node & f1 & Hpop & Hcases).
    destruct Hcases
      as [[Hsome [= -> ->]]|[(_ & _ & [=])|(Hnone & Hfail & f2 & Hf2 & [= -> ->])]];
      [done|].
    intros s p q.
    destruct (decide (heapnode.state node = s)) as [<-|Hne].
    + rewrite lookup_insert_eq. intros [= <-] Hq.
      by eapply popped_optimal.
    + rewrite lookup_insert_ne by done. apply IH.
Qed.

Lemma Return_optimal (n : nat) v f p q s :
  run' n = Some (v, f) -> loop_body' v f = Ok (ReturnPath p) ->
  follow transitions init_state q = Some s -> success s = true ->
  cost p <= cost q.
Proof.
  intros Hrun Hbody Hq Hs.
  pose proof (run_search_inv _ _ _ Hrun) as Hinv.
  pose proof (run_opt_inv _ _ _ Hrun) as Hopt.
  apply loop_body_Ok in Hbody as (node & f1 & Hpop & Hcases).
  destruct Hcases as [[_ [=]]|[(Hnone & _ & [= ->])|(_ & _ & f2 & _ & [=])]].
  eapply popped_optimal; [done..|].
  destruct (v !! s) as [p'|] eqn:Hv; [|done].
  destruct (inv_visited _ _ Hinv s p' Hv) as [_ Hfalse]. congruence.
Qed.
End optimality.

(** *** Termination on a finite graph without success states *)

Section termination.
Variable R : gset State.
Hypothesis reachable_finite :
  forall s, reachable transitions init_state s -> s ∈ R.
Hypothesis reachable_no_success :
  forall s, reachable transitions init_state s -> success s = false.

(** Every iteration decreases the measure, so the loop ends: with an
    exception, which is the no-solution signal unless a transition
    raised. *)
Lemma while_loop_terminates fuel v f :
  search_inv v f -> (search_spec.measure transitions R v f < fuel)%nat ->
  exists e, while_loop' fuel v f = Raised e
    /\ (transitions_defined transitions init_state -> e = no_solution_found).
Proof.
  revert v f. induction fuel as [|fuel IH]; intros v f Hinv Hfuel; [lia|].
  rewrite while_loop_S. case_bool_decide as Hlen; [|by exists no_solution_found].
  destruct (heappop_Ok f Hlen) as (node & f1 & Hpop).
  pose proof (heappop_perm _ _ _ Hpop) as Hperm.
  assert (Hf : length f = S (length f1)) by (by rewrite Hperm).
  assert (Hnode : node ∈ f) by (rewrite Hperm; apply list_elem_of_here).
  destruct (inv_node _ _ Hinv node Hnode) as [Hfollow _].
  assert (Hreach : reachable transitions init_state (heapnode.state node))
    by (by eexists).
  unfold loop_body. rewrite Hpop. simpl.
  destruct (v !! heapnode.state node) as [p|] eqn:Hv.
  - apply IH; [by eapply search_inv_skip|]. unfold search_spec.measure in *. lia.
  - rewrite (reachable_no_success _ Hreach).
    destruct (expand transitions cost
                (<[heapnode.state node := heapnode.path node]> v) node f1)
      as [f2|e] eqn:Hf2; simpl.
    + apply IH.
      { eapply search_inv_expand; [done..| |done]. by apply reachable_no_success. }
      apply expand_fold_Ok in Hf2 as (_ & Hlen2 & _).
      assert (Hsize : (size (R ∖ dom (<[heapnode.state node := heapnode.path node]> v))
                       < size (R ∖ dom v))%nat).
      { apply subset_size. rewrite dom_insert_L.
        apply reachable_finite in Hreach. apply not_elem_of_dom in Hv.
        split.
        - intros y. rewrite !elem_of_difference, elem_of_union. tauto.
        - intros Hsub. specialize (Hsub (heapnode.state node)).
          rewrite !elem_of_difference, elem_of_union, elem_of_singleton in Hsub.
          tauto. }
      unfold search_spec.measure in *. nia.
    + exists e. split; [done|]. intros Hdef.
      apply expand_fold_Raise in Hf2 as (name & t & Hin & Ht).
      destruct (Hdef _ name t Hreach Hin) as [s' Hs']. congruence.
Qed.
End termination.
End search_facts.

(** * Whole runs: the visited mapping and failures *)

Section run_facts.
Variable init_state : State.
Variable transitions : list (string * Transition).
Variable success : State -> bool.
Variable cost : Path -> Z.

Implicit Types (v : gmap State Path) (f : list heapnode) (node : heapnode).

Local Abbreviation run' := (run init_state transitions success cost).
Local Abbreviation loop_body' := (loop_body transitions success cost).
Local Abbreviation frontier_ok := search_spec.frontier_ok.

(** What an iteration that continues does to the visited mapping. *)
Lemma loop_body_visited v f v' f' :
  loop_body' v f = Ok (Continue v' f') ->
  exists node f1, heappop f = Ok (node, f1)
    /\ (forall m, m ∈ f1 -> m ∈ f')
    /\ ((is_Some (v !! heapnode.state node) /\ v' = v)
        \/ (v !! heapnode.state node = None
            /\ v' = <[heapnode.state node := heapnode.path node]> v)).
Proof.
  intros (node & f1 & Hpop & Hcases)%loop_body_Ok. exists node, f1.
  split; [done|].
  destruct Hcases
    as [[Hsome [= -> ->]]|[(_ & _ & [=])|(Hnone & Hfail & f2 & Hf2 & [= -> ->])]].
  - split; [done|]. by left.
  - apply expand_fold_Ok in Hf2 as (_ & _ & Hkeep & _). split; [done|]. by right.
Qed.

Lemma loop_body_frontier_ok v f v' f' :
  frontier_ok f -> loop_body' v f = Ok (Continue v' f') -> frontier_ok f'.
Proof.
  intros Hf (node & f1 & Hpop & Hcases)%loop_body_Ok.
  destruct (heappop_ok f node f1 Hf Hpop) as [Hf1 _].
  destruct Hcases
    as [[Hsome [= -> ->]]|[(_ & _ & [=])|(Hnone & Hfail & f2 & Hf2 & [= -> ->])]];
    [done|].
  apply expand_fold_Ok in Hf2 as (Hok & _). by apply Hok.
Qed.

Lemma run_frontier_ok (n : nat) v f : run' n = Some (v, f) -> frontier_ok f.
Proof.
  revert v f. induction n as [|n IH]; intros v f.
  - intros [= <- <-]. intros j Hj a b Ha Hb.
    apply lookup_lt_Some in Hb. simpl in Hb.
    pose proof (parent_lt j Hj). lia.
  - intros (v0 & f0 & Hrun & _ & Hbody)%run_S_Some.
    eapply loop_body_frontier_ok; [by eapply IH|done].
Qed.

(** An entry of the visited mapping stays as it is for the rest of the run. *)
Lemma run_visited_mono (n m : nat) v f v' f' s p :
  run' n = Some (v, f) -> run' (n + m) = Some (v', f') ->
  v !! s = Some p -> v' !! s = Some p.
Proof.
  intros Hn. revert v' f'. induction m as [|m IH]; intros v' f'.
  - rewrite Nat.add_0_r, Hn. by intros [= <- <-].
  - rewrite Nat.add_succ_r.
    intros (v0 & f0 & Hrun & _ & Hbody)%run_S_Some Hs.
    specialize (IH _ _ Hrun Hs).
    apply loop_body_visited in Hbody as (node & f1 & _ & _ & [[_ ->]|[Hnone ->]]);
      [done|].
    rewrite lookup_insert_ne; [done|]. intros Heq. congruence.
Qed.

(** An exception other than the no-solution signal comes from a transition
    applied to a state of the graph. *)
Lemma Raise_from_transition (n : nat) v f e :
  NoDup transitions.*1 ->
  run' n = Some (v, f) -> (0 < length f)%nat -> loop_body' v f = Raise e ->
  exists s name transition,
    reachable transitions init_state s /\ (name, transition) ∈ transitions
    /\ transition s = Raise e.
Proof.
  intros Hnd Hrun Hlen Hbody.
  pose proof (run_search_inv _ _ _ _ Hnd _ _ _ Hrun) as Hinv.
  apply loop_body_Raise in Hbody
    as (node & f1 & Hpop & _ & _ & name & t & Hin & Ht); [|done].
  exists (heapnode.state node), name, t. split; [|done].
  exists (heapnode.path node). apply (search_spec.inv_node _ _ Hinv).
  rewrite (heappop_perm _ _ _ Hpop). apply list_elem_of_here.
Qed.


End run_facts.


(** * The gates *)

(** ** Python strings as lists of characters *)

Section pystr_facts.
Implicit Types (s : string) (l : list ascii) (q : Z).

Lemma chars_of_chars l : pystr.chars (pystr.of_chars l) = l.
Proof. apply String.list_ascii_of_string_of_list_ascii. Qed.

Lemma of_chars_chars s : pystr.of_chars (pystr.chars s) = s.
Proof. apply String.string_of_list_ascii_of_string. Qed.

Lemma chars_inj s1 s2 : pystr.chars s1 = pystr.chars s2 -> s1 = s2.
Proof. intros H. by rewrite <- (of_chars_chars s1), H, of_chars_chars. Qed.

Lemma of_chars_app l1 l2 :
  pystr.of_chars (l1 ++ l2) = pystr.of_chars l1 +:+ pystr.of_chars l2.
Proof. induction l1 as [|c l1 IH]; simpl; [done|]. by rewrite IH. Qed.

Lemma chars_app s1 s2 : pystr.chars (s1 +:+ s2) = pystr.chars s1 ++ pystr.chars s2.
Proof.
  rewrite <- (of_chars_chars s1), <- (of_chars_chars s2) at 1.
  by rewrite <- of_chars_app, chars_of_chars.
Qed.

Lemma len_chars s : pystr.len s = Z.of_nat (length (pystr.chars s)).
Proof. reflexivity. Qed.

(** [s[:q]], [s[q:]] and [s[q:q+2]] for a position [q >= 0]. *)
Lemma slice_prefix s q :
  0 <= q -> pystr.chars (pystr.slice s None (Some q)) = take (Z.to_nat q) (pystr.chars s).
Proof.
  intros Hq. unfold pystr.slice, pystr.adjust. rewrite chars_of_chars, len_chars.
  rewrite bool_decide_eq_false_2 by lia. rewrite drop_0.
  destruct (decide (Z.to_nat q <= length (pystr.chars s))%nat) as [Hle|Hgt].
  - f_equal. lia.
  - rewrite !take_ge; [done|lia|lia].
Qed.

Lemma slice_suffix s q :
  0 <= q -> pystr.chars (pystr.slice s (Some q) None) = drop (Z.to_nat q) (pystr.chars s).
Proof.
  intros Hq. unfold pystr.slice, pystr.adjust. rewrite chars_of_chars, len_chars.
  rewrite bool_decide_eq_false_2 by lia.
  rewrite take_ge by (rewrite length_drop; lia).
  destruct (decide (Z.to_nat q <= length (pystr.chars s))%nat) as [Hle|Hgt].
  - f_equal. lia.
  - rewrite !drop_ge; [done|lia|lia].
Qed.

Lemma slice_pair s q :
  0 <= q ->
  pystr.chars (pystr.slice s (Some q) (Some (q + 2)))
  = take 2 (drop (Z.to_nat q) (pystr.chars s)).
Proof.
  intros Hq. unfold pystr.slice, pystr.adjust. rewrite chars_of_chars, len_chars.
  rewrite !bool_decide_eq_false_2 by lia.
  destruct (decide (Z.to_nat q + 2 <= length (pystr.chars s))%nat) as [Hle|Hgt].
  - replace (Z.to_nat (Z.min q (Z.of_nat (length (pystr.chars s)))))
      with (Z.to_nat q) by lia.
    by replace (Z.to_nat (Z.min (q + 2) (Z.of_nat (length (pystr.chars s)))
                          - Z.min q (Z.of_nat (length (pystr.chars s)))))
      with 2%nat by lia.
  - destruct (decide (Z.to_nat q <= length (pystr.chars s))%nat) as [Hle'|Hgt'].
    + replace (Z.to_nat (Z.min q (Z.of_nat (length (pystr.chars s)))))
        with (Z.to_nat q) by lia.
      rewrite !take_ge; [done|rewrite length_drop; lia..].
    + rewrite (drop_ge (pystr.chars s) (Z.to_nat q)) by lia.
      rewrite (drop_ge (pystr.chars s)) by lia. by rewrite !take_nil.
Qed.

Lemma getitem_Ok s q r :
  0 <= q ->
  pystr.getitem s q = Ok r <->
  exists c, pystr.chars s !! Z.to_nat q = Some c /\ r = pystr.of_chars [c].
Proof.
  intros Hq. unfold pystr.getitem.
  rewrite (bool_decide_eq_false_2 (q < 0)) by lia.
  case_bool_decide as Hin.
  - destruct (pystr.chars s !! Z.to_nat q) as [c|] eqn:Hc.
    + split; [intros [= <-]; by exists c|]. by intros (c' & [= <-] & ->).
    + split; [done|]. by intros (c' & [=] & _).
  - split; [done|]. intros (c & Hc%lookup_lt_Some & _).
    rewrite len_chars in Hin. lia.
Qed.
End pystr_facts.

(** ** The loop over the basis strings *)

Lemma exc_foldl_append (body : string -> Exc string) acc state out :
  exc_foldl (fun new_state string =>
               new_string ← body string; Ok (new_state ++ [new_string])) acc state
  = Ok out <->
  exists outs, Forall2 (fun s o => body s = Ok o) state outs /\ out = acc ++ outs.
Proof.
  revert acc. induction state as [|s state IH]; intros acc; simpl.
  - split.
    + intros [= <-]. exists []. by rewrite app_nil_r.
    + intros (outs & ->%Forall2_nil_inv_l & ->). by rewrite app_nil_r.
  - destruct (body s) as [o|e] eqn:Hs; simpl.
    + rewrite IH. split.
      * intros (outs & Hall & ->). exists (o :: outs).
        split; [by constructor|]. by rewrite <- app_assoc.
      * intros (outs & Hall & ->).
        apply Forall2_cons_inv_l in Hall as (o' & outs' & Ho' & Hall & ->).
        exists outs'. split; [done|]. rewrite <- app_assoc. simpl. congruence.
    + split; [done|]. intros (outs & Hall & _).
      apply Forall2_cons_inv_l in Hall as (o' & outs' & Ho' & _). congruence.
Qed.

Lemma for_each_append_Ok body state out :
  for_each_append body state = Ok out <->
  Forall2 (fun s o => body s = Ok o) state out.
Proof.
  unfold for_each_append. rewrite exc_foldl_append. split.
  - by intros (outs & Hall & ->).
  - intros Hall. by exists out.
Qed.

(** ** The gates [x] and [subswap] *)

Section gate_facts.
Implicit Types (s o : string) (q : Z) (dl dh c : ascii).

Lemma x_unfold state q low_radix :
  x state q low_radix =
  for_each_append (x_body q (pystr.str low_radix) (pystr.str (low_radix + 1))) state.
Proof. reflexivity. Qed.

Lemma subswap_unfold state q low_radix :
  subswap state q low_radix =
  for_each_append
    (subswap_body q (pystr.str low_radix +:+ pystr.str low_radix)
                  (pystr.str (low_radix + 1) +:+ pystr.str (low_radix + 1))) state.
Proof. reflexivity. Qed.

Lemma single_digit_str low_radix :
  single_digit low_radix ->
  exists dl dh, dl <> dh /\ pystr.str low_radix = pystr.of_chars [dl]
                /\ pystr.str (low_radix + 1) = pystr.of_chars [dh].
Proof.
  intros Hd. unfold single_digit in Hd.
  assert (Hcases : low_radix = 0 \/ low_radix = 1 \/ low_radix = 2 \/ low_radix = 3
                   \/ low_radix = 4 \/ low_radix = 5 \/ low_radix = 6
                   \/ low_radix = 7 \/ low_radix = 8) by lia.
  destruct_or!; subst low_radix; eexists _, _;
    (split; [|split; reflexivity]); done.
Qed.

Lemma of_chars_single_eq c d : pystr.of_chars [c] = pystr.of_chars [d] <-> c = d.
Proof. split; [by intros [= ->]|by intros ->]. Qed.

Lemma flip_char_involutive dl dh c : flip_char dl dh (flip_char dl dh c) = c.
Proof. unfold flip_char. repeat case_decide; congruence. Qed.

Lemma flip_char_select {B} (k : ascii -> B) dl dh c :
  (if bool_decide (pystr.of_chars [c] = pystr.of_chars [dh]) then k dl
   else if bool_decide (pystr.of_chars [c] = pystr.of_chars [dl]) then k dh
        else k c)
  = k (flip_char dl dh c).
Proof.
  unfold flip_char. destruct (decide (c = dh)) as [->|Hh].
  { by rewrite bool_decide_eq_true_2. }
  rewrite bool_decide_eq_false_2 by (by rewrite of_chars_single_eq).
  destruct (decide (c = dl)) as [->|Hl].
  { by rewrite bool_decide_eq_true_2. }
  by rewrite bool_decide_eq_false_2 by (by rewrite of_chars_single_eq).
Qed.

Lemma x_body_Some q dl dh s c :
  0 <= q -> pystr.chars s !! Z.to_nat q = Some c ->
  x_body q (pystr.of_chars [dl]) (pystr.of_chars [dh]) s
  = Ok (pystr.of_chars (<[Z.to_nat q := flip_char dl dh c]> (pystr.chars s))).
Proof.
  intros Hq Hc. unfold x_body.
  assert (Hget : pystr.getitem s q = Ok (pystr.of_chars [c])).
  { apply getitem_Ok; [done|]. by exists c. }
  rewrite Hget. unfold mbind, exc_mbind. cbn [exc_bind].
  rewrite (flip_char_select
             (fun d => Ok (pystr.slice s None (Some q) +:+ pystr.of_chars [d]))).
  simpl. f_equal. apply chars_inj.
  rewrite !chars_app, !chars_of_chars, slice_prefix, slice_suffix by lia.
  rewrite insert_take_drop by (by eapply lookup_lt_Some).
  replace (Z.to_nat (q + 1)) with (S (Z.to_nat q)) by lia.
  by rewrite <- app_assoc.
Qed.

Lemma x_body_None q low high s :
  0 <= q -> pystr.chars s !! Z.to_nat q = None ->
  x_body q low high s = Raise (IndexError "string index out of range").
Proof.
  intros Hq Hc. unfold x_body, pystr.getitem.
  rewrite (bool_decide_eq_false_2 (q < 0)) by lia. rewrite Hc.
  by case_bool_decide.
Qed.

Lemma x_body_Ok q dl dh s o :
  0 <= q ->
  x_body q (pystr.of_chars [dl]) (pystr.of_chars [dh]) s = Ok o <->
  exists c, pystr.chars s !! Z.to_nat q = Some c
    /\ o = pystr.of_chars (<[Z.to_nat q := flip_char dl dh c]> (pystr.chars s)).
Proof.
  intros Hq. destruct (pystr.chars s !! Z.to_nat q) as [c|] eqn:Hc.
  - rewrite (x_body_Some q dl dh s c) by done. split.
    + intros [= <-]. by exists c.
    + by intros (c' & [= <-] & ->).
  - rewrite x_body_None by done. split; [done|]. by intros (c & [=] & _).
Qed.

(** [x] keeps the length of a basis string and undoes itself. *)
Lemma x_body_len q dl dh s o :
  0 <= q -> x_body q (pystr.of_chars [dl]) (pystr.of_chars [dh]) s = Ok o ->
  pystr.len o = pystr.len s.
Proof.
  intros Hq (c & Hc & ->)%x_body_Ok; [|done].
  by rewrite !len_chars, chars_of_chars, length_insert.
Qed.

Lemma x_body_twice q dl dh s o :
  0 <= q -> x_body q (pystr.of_chars [dl]) (pystr.of_chars [dh]) s = Ok o ->
  x_body q (pystr.of_chars [dl]) (pystr.of_chars [dh]) o = Ok s.
Proof.
  intros Hq (c & Hc & ->)%x_body_Ok; [|done].
  pose proof (lookup_lt_Some _ _ _ Hc) as Hlen.
  rewrite (x_body_Some q dl dh _ (flip_char dl dh c)); [|done|].
  - rewrite chars_of_chars, list_insert_insert_eq, flip_char_involutive.
    by rewrite list_insert_id, of_chars_chars.
  - rewrite chars_of_chars. by apply list_lookup_insert_eq.
Qed.

(** [subswap] on one basis string. *)
Lemma flip_pair_length dl dh pair : length (flip_pair dl dh pair) = length pair.
Proof. unfold flip_pair. repeat case_decide; by subst. Qed.

Lemma flip_pair_involutive dl dh pair :
  dl <> dh -> flip_pair dl dh (flip_pair dl dh pair) = pair.
Proof. intros Hne. unfold flip_pair. repeat case_decide; congruence. Qed.

Lemma subswap_body_eq q dl dh s :
  0 <= q ->
  subswap_body q (pystr.of_chars [dl; dl]) (pystr.of_chars [dh; dh]) s
  = Ok (pystr.of_chars
          (take (Z.to_nat q) (pystr.chars s)
           ++ flip_pair dl dh (take 2 (drop (Z.to_nat q) (pystr.chars s)))
           ++ drop (Z.to_nat q + 2) (pystr.chars s))).
Proof.
  intros Hq. unfold subswap_body. f_equal. apply chars_inj.
  rewrite chars_app, slice_suffix, chars_of_chars by lia.
  replace (Z.to_nat (q + 2)) with (Z.to_nat q + 2)%nat by lia.
  rewrite app_assoc. f_equal.
  set (pair := pystr.slice s (Some q) (Some (q + 2))).
  assert (Hpair : pystr.chars pair = take 2 (drop (Z.to_nat q) (pystr.chars s)))
    by (by apply slice_pair).
  assert (Heq : forall l, pair = pystr.of_chars l <-> pystr.chars pair = l).
  { intros l. split; [intros ->; apply chars_of_chars|].
    intros <-. by rewrite of_chars_chars. }
  rewrite <- Hpair. unfold flip_pair.
  repeat case_bool_decide; repeat case_decide;
    rewrite ?Heq in *; try congruence;
    by rewrite chars_app, ?chars_of_chars, slice_prefix by lia.
Qed.

Lemma subswap_body_len q dl dh s o :
  0 <= q ->
  subswap_body q (pystr.of_chars [dl; dl]) (pystr.of_chars [dh; dh]) s = Ok o ->
  pystr.len o = pystr.len s.
Proof.
  intros Hq. rewrite subswap_body_eq by done. intros [= <-].
  rewrite !len_chars, chars_of_chars. f_equal.
  rewrite !length_app, flip_pair_length, <- !length_app.
  by rewrite <- drop_drop, take_drop, take_drop.
Qed.

Lemma splice_positions (pre mid tl : list ascii) (k : nat) :
  length pre = k -> length mid = 2%nat ->
  take k (pre ++ mid ++ tl) = pre
  /\ take 2 (drop k (pre ++ mid ++ tl)) = mid
  /\ drop (k + 2) (pre ++ mid ++ tl) = tl.
Proof.
  intros <- Hmid. split_and!.
  - by rewrite take_app_length.
  - rewrite drop_app_length. by rewrite <- Hmid, take_app_length.
  - rewrite <- drop_drop, drop_app_length. by rewrite <- Hmid, drop_app_length.
Qed.

Lemma subswap_body_twice q dl dh s o :
  0 <= q -> dl <> dh ->
  subswap_body q (pystr.of_chars [dl; dl]) (pystr.of_chars [dh; dh]) s = Ok o ->
  subswap_body q (pystr.of_chars [dl; dl]) (pystr.of_chars [dh; dh]) o = Ok s.
Proof.
  intros Hq Hne. rewrite !subswap_body_eq by done. intros [= <-].
  f_equal. apply chars_inj. rewrite !chars_of_chars.
  set (k := Z.to_nat q). set (cs := pystr.chars s).
  set (pair := take 2 (drop k cs)).
  assert (Hcs : cs = take k cs ++ pair ++ drop (k + 2) cs).
  { unfold pair. by rewrite <- drop_drop, take_drop, take_drop. }
  destruct (decide (flip_pair dl dh pair = pair)) as [Hsame|Hflip].
  { rewrite Hsame, <- Hcs. fold pair. by rewrite Hsame, <- Hcs. }
  assert (Hpl : length pair = 2%nat).
  { revert Hflip. unfold flip_pair.
    repeat case_decide; intros Hflip; try done;
      match goal with H : pair = _ |- _ => by rewrite H end. }
  assert (Hk : length (take k cs) = k).
  { rewrite length_take. apply Nat.min_l.
    assert (length (drop k cs) >= 2)%nat.
    { unfold pair in Hpl. rewrite length_take in Hpl. lia. }
    rewrite length_drop in *. lia. }
  set (pair' := flip_pair dl dh pair) in *.
  assert (Hpl' : length pair' = 2%nat).
  { unfold pair'. by rewrite flip_pair_length. }
  destruct (splice_positions (take k cs) pair' (drop (k + 2) cs) k)
    as (-> & -> & ->); [done..|].
  unfold pair'. by rewrite flip_pair_involutive.
Qed.
End gate_facts.

(** ** The gates on whole states *)

Section gate_state_facts.
Implicit Types (state : State) (q low_radix : Z).

Lemma for_each_append_total (body : string -> Exc string) state :
  Forall (fun s => exists o, body s = Ok o) state ->
  exists state', for_each_append body state = Ok state'.
Proof.
  intros Hall.
  assert (exists state', Forall2 (fun s o => body s = Ok o) state state')
    as [state' Hstate'].
  { induction Hall as [|s state [o Ho] _ [state' IH]]; [by exists []|].
    exists (o :: state'). by constructor. }
  exists state'. by apply for_each_append_Ok.
Qed.

Lemma for_each_append_twice (body : string -> Exc string) state state' :
  (forall s o, body s = Ok o -> body o = Ok s) ->
  for_each_append body state = Ok state' -> for_each_append body state' = Ok state.
Proof.
  intros Hbody Hall%for_each_append_Ok. apply for_each_append_Ok.
  apply Forall2_flip. eapply Forall2_impl; [done|]. apply Hbody.
Qed.

Lemma for_each_append_shape (body : string -> Exc string) state state' :
  (forall s o, body s = Ok o -> pystr.len o = pystr.len s) ->
  for_each_append body state = Ok state' -> same_shape state state'.
Proof.
  intros Hbody Hall%for_each_append_Ok. split.
  - symmetry. by eapply Forall2_length.
  - eapply Forall2_impl; [done|]. apply Hbody.
Qed.

Lemma x_same_shape state q low_radix state' :
  0 <= q -> single_digit low_radix ->
  x state q low_radix = Ok state' -> same_shape state state'.
Proof.
  intros Hq (dl & dh & _ & Hl & Hh)%single_digit_str.
  rewrite x_unfold, Hl, Hh. apply for_each_append_shape.
  intros s o. by apply x_body_len.
Qed.

Lemma x_twice state q low_radix state' :
  0 <= q -> single_digit low_radix ->
  x state q low_radix = Ok state' -> x state' q low_radix = Ok state.
Proof.
  intros Hq (dl & dh & _ & Hl & Hh)%single_digit_str.
  rewrite !x_unfold, Hl, Hh. apply for_each_append_twice.
  intros s o. by apply x_body_twice.
Qed.

Lemma x_total state q low_radix :
  0 <= q -> single_digit low_radix -> long_enough state q ->
  exists state', x state q low_radix = Ok state'.
Proof.
  intros Hq (dl & dh & _ & Hl & Hh)%single_digit_str Hlong.
  rewrite x_unfold, Hl, Hh. apply for_each_append_total.
  eapply Forall_impl; [exact Hlong|]. intros s Hs. simpl in Hs.
  destruct (pystr.chars s !! Z.to_nat q) as [c|] eqn:Hc.
  - eexists. by apply x_body_Some.
  - apply lookup_ge_None in Hc. rewrite len_chars in Hs. lia.
Qed.

Lemma subswap_same_shape state q low_radix state' :
  0 <= q -> single_digit low_radix ->
  subswap state q low_radix = Ok state' -> same_shape state state'.
Proof.
  intros Hq (dl & dh & _ & Hl & Hh)%single_digit_str.
  rewrite subswap_unfold, Hl, Hh. apply for_each_append_shape.
  intros s o. by apply (subswap_body_len q dl dh).
Qed.

Lemma subswap_twice state q low_radix state' :
  0 <= q -> single_digit low_radix ->
  subswap state q low_radix = Ok state' -> subswap state' q low_radix = Ok state.
Proof.
  intros Hq (dl & dh & Hne & Hl & Hh)%single_digit_str.
  rewrite !subswap_unfold, Hl, Hh. apply for_each_append_twice.
  intros s o. by apply (subswap_body_twice q dl dh).
Qed.

Lemma subswap_total state q low_radix :
  0 <= q -> single_digit low_radix ->
  exists state', subswap state q low_radix = Ok state'.
Proof.
  intros Hq (dl & dh & _ & Hl & Hh)%single_digit_str.
  rewrite subswap_unfold, Hl, Hh. apply for_each_append_total.
  apply Forall_forall. intros s _. eexists. by apply (subswap_body_eq q dl dh).
Qed.
End gate_state_facts.

(** * The properties of the specification *)

(** ** Facts about the example inputs *)

Lemma reachable_closed (transitions : list (string * Transition))
    (init_state : State) (R : list State) :
  init_state ∈ R ->
  (forall s name transition s',
     s ∈ R -> (name, transition) ∈ transitions -> transition s = Ok s' -> s' ∈ R) ->
  forall s, reachable transitions init_state s -> s ∈ R.
Proof.
  intros Hinit Hclosed s [p Hp]. revert s Hp.
  induction p as [|name p IH] using rev_ind; intros s.
  - by intros [= <-].
  - rewrite follow_snoc.
    destruct (follow transitions init_state p) as [s0|]; [|done]. simpl.
    intros (t & Hin & Hts)%apply_transition_Some.
    eapply Hclosed; [by apply IH|done..].
Qed.

Lemma flips_NoDup : NoDup flips.transitions.*1.
Proof. by apply (bool_decide_unpack _). Qed.

Lemma flips_states s : reachable flips.transitions flips.init_state s -> s ∈ flips.states.
Proof.
  apply reachable_closed.
  - by apply (bool_decide_unpack _).
  - intros s0 name t s' Hs0 Hin Hts. unfold flips.states, flips.transitions in *.
    repeat (apply elem_of_cons in Hs0 as [->|Hs0]);
      try (by apply elem_of_nil in Hs0);
      repeat (apply elem_of_cons in Hin as [[= -> ->]|Hin]);
      try (by apply elem_of_nil in Hin);
      vm_compute in Hts; injection Hts as <-; by apply (bool_decide_unpack _).
Qed.

Lemma flips_never s : reachable flips.transitions flips.init_state s -> flips.never s = false.
Proof.
  intros Hs%flips_states. unfold flips.states in Hs.
  repeat (apply elem_of_cons in Hs as [->|Hs]); try (by apply elem_of_nil in Hs);
    reflexivity.
Qed.

Lemma flips_defined : transitions_defined flips.transitions flips.init_state.
Proof.
  intros s name t Hs%flips_states Hin. unfold flips.states, flips.transitions in *.
  repeat (apply elem_of_cons in Hs as [->|Hs]); try (by apply elem_of_nil in Hs);
    repeat (apply elem_of_cons in Hin as [[= -> ->]|Hin]);
    try (by apply elem_of_nil in Hin); by eexists.
Qed.

Lemma length_cost_monotone : monotone_cost flips.cost.
Proof. intros p name. unfold flips.cost. rewrite length_app. simpl. lia. Qed.

Lemma length_cost_extension transitions init_state :
  extension_keeps_order transitions init_state flips.cost.
Proof.
  intros p q name s _ _. unfold flips.cost. rewrite !length_app. simpl. lia.
Qed.

Lemma detour_NoDup : NoDup detour.transitions.*1.
Proof. by apply (bool_decide_unpack _). Qed.

Lemma detour_cost_monotone : monotone_cost detour.cost.
Proof.
  intros p name. destruct p as [|n1 [|n2 p]]; simpl; repeat case_decide; lia.
Qed.

(** The script: its table has distinct names, its cost is additive, and its
    search returns a path of six gates. *)
Lemma example_NoDup : NoDup example.transitions.*1.
Proof. by apply (bool_decide_unpack _). Qed.

Lemma example_cost_snoc path name :
  example.cost (path ++ [name])
  = example.cost path + (if String.prefix "subswap" name then 11 else 1).
Proof.
  unfold example.cost, Path. rewrite filter_app, !length_app. simpl.
  rewrite filter_cons, filter_nil.
  destruct (String.prefix "subswap" name); case_decide; try done; simpl; lia.
Qed.

Lemma example_cost_monotone : monotone_cost example.cost.
Proof.
  intros p name. rewrite example_cost_snoc.
  destruct (String.prefix "subswap" name); lia.
Qed.

Lemma example_cost_extension transitions init_state :
  extension_keeps_order transitions init_state example.cost.
Proof. intros p q name s _ _. rewrite !example_cost_snoc. lia. Qed.

Lemma example_solution :
  state_search_via_dijkstras example.init_state example.transitions
    example.success example.cost 800
  = Return ["x1_01"; "subswap12_01"; "x2_12"; "x2_01"; "subswap12_01"; "x2_12"].
Proof. vm_compute. reflexivity. Qed.

(** ** C1: optimality *)

(** With a cost that is only monotone under extension the search can return
    a path that is not the cheapest: on the graph [detour] the state [1] is
    finalized with the path [a] of cost 1, the later and dearer path [b; a]
    to it is discarded, and the search returns [a; t] of cost 100 although
    [b; a; t] reaches the same success state at cost 2. *)
Lemma monotone_cost_not_sufficient :
  monotone_cost detour.cost
  /\ state_search_via_dijkstras detour.init_state detour.transitions
       detour.success detour.cost 10 = Return ["a"; "t"]
  /\ ~ cheapest_success_path detour.transitions detour.init_state
         detour.success detour.cost ["a"; "t"].
Proof.
  split; [apply detour_cost_monotone|]. split; [by vm_compute|].
  intros [_ Hmin]. specialize (Hmin ["b"; "a"; "t"]).
  assert (Hq : reaches_success detour.transitions detour.init_state
                 detour.success ["b"; "a"; "t"]).
  { exists ["3"]. by vm_compute. }
  apply Hmin in Hq. vm_compute in Hq. by apply Hq.
Qed.

(** C1 (amended): for a cost function that is monotone non-decreasing under
    path extension and whose order between two paths to the same state is
    kept when both are extended by the same transition, whenever
    [state_search_via_dijkstras] returns a path, that path reaches a state
    satisfying [success] and its cost is the minimum of the cost over all
    paths from [init_state] that reach such a state. *)
Theorem returned_path_is_cheapest
    (init_state : State) (transitions : list (string * Transition))
    (success : State -> bool) (cost : Path -> Z) (fuel : nat) (p : Path) :
  NoDup transitions.*1 ->
  monotone_cost cost ->
  extension_keeps_order transitions init_state cost ->
  state_search_via_dijkstras init_state transitions success cost fuel = Return p ->
  cheapest_success_path transitions init_state success cost p.
Proof.
  intros Hnd Hmono Hext Hret.
  apply search_finishes in Hret as (n & v & f & _ & Hrun & Hfin); [|done].
  destruct Hfin as [[_ [=]]|[_ [(p' & Hbody & [= <-])|(e & _ & [=])]]].
  split.
  - destruct (Return_sound _ _ _ _ Hnd _ _ _ _ Hrun Hbody)
      as (node & f1 & s & _ & _ & _ & _ & Hfollow & Hs).
    by exists s.
  - intros q (s & Hq & Hs).
    by eapply (Return_optimal init_state transitions success cost Hnd Hmono Hext).
Qed.

Lemma returned_path_is_cheapest_witness :
  NoDup example.transitions.*1
  /\ monotone_cost example.cost
  /\ extension_keeps_order example.transitions example.init_state example.cost
  /\ state_search_via_dijkstras example.init_state example.transitions
       example.success example.cost 800
     = Return ["x1_01"; "subswap12_01"; "x2_12"; "x2_01"; "subswap12_01"; "x2_12"]
  /\ cheapest_success_path example.transitions example.init_state example.success
       example.cost
       ["x1_01"; "subswap12_01"; "x2_12"; "x2_01"; "subswap12_01"; "x2_12"].
Proof.
  split; [apply example_NoDup|]. split; [apply example_cost_monotone|].
  split; [apply example_cost_extension|]. split; [apply example_solution|].
  exact (returned_path_is_cheapest _ _ _ _ _ _ example_NoDup example_cost_monotone
           (example_cost_extension _ _) example_solution).
Defined.

(** ** C2: validity of the returned path *)

(** C2: whenever [state_search_via_dijkstras] returns a path, every
    identifier of the path is a key of the transition table, and applying
    the transitions of the path in order to [init_state] yields a state for
    which [success] is true. *)
Theorem returned_path_is_valid
    (init_state : State) (transitions : list (string * Transition))
    (success : State -> bool) (cost : Path -> Z) (fuel : nat) (p : Path) :
  NoDup transitions.*1 ->
  state_search_via_dijkstras init_state transitions success cost fuel = Return p ->
  Forall (fun name => name ∈ transitions.*1) p
  /\ reaches_success transitions init_state success p.
Proof.
  intros Hnd Hret.
  apply search_finishes in Hret as (n & v & f & _ & Hrun & Hfin); [|done].
  destruct Hfin as [[_ [=]]|[_ [(p' & Hbody & [= <-])|(e & _ & [=])]]].
  destruct (Return_sound _ _ _ _ Hnd _ _ _ _ Hrun Hbody)
    as (node & f1 & s & _ & _ & _ & _ & Hfollow & Hs).
  split; [by eapply follow_keys|by exists s].
Qed.

Lemma returned_path_is_valid_witness :
  NoDup flips.transitions.*1
  /\ state_search_via_dijkstras flips.init_state flips.transitions
       flips.success flips.cost 10 = Return ["x0_01"; "x1_01"]
  /\ Forall (fun name => name ∈ flips.transitions.*1) ["x0_01"; "x1_01"]
  /\ reaches_success flips.transitions flips.init_state flips.success
       ["x0_01"; "x1_01"].
Proof.
  assert (Hret : state_search_via_dijkstras flips.init_state flips.transitions
                   flips.success flips.cost 10 = Return ["x0_01"; "x1_01"])
    by (vm_compute; reflexivity).
  split; [apply flips_NoDup|]. split; [exact Hret|].
  exact (returned_path_is_valid _ _ _ _ _ _ flips_NoDup Hret).
Defined.

(** ** C3: termination without a solution *)

(** C3: if the set of states reachable from [init_state] under repeated
    application of the transitions is finite (contained in the list [R]) and
    contains no state satisfying [success], then [state_search_via_dijkstras]
    terminates and reports the no-solution outcome: from some amount of fuel
    on the loop has ended, it has not returned a path, and what it raised is
    the no-solution [RuntimeError], the transitions being functions on the
    states of the graph (a transition that raises there ends the search with
    its own exception instead). *)
Theorem no_solution_on_finite_graph
    (init_state : State) (transitions : list (string * Transition))
    (success : State -> bool) (cost : Path -> Z) (R : list State) :
  NoDup transitions.*1 ->
  (forall s, reachable transitions init_state s -> s ∈ R) ->
  (forall s, reachable transitions init_state s -> success s = false) ->
  exists fuel, forall fuel', (fuel <= fuel')%nat ->
    (exists e,
       state_search_via_dijkstras init_state transitions success cost fuel' = Raised e)
    /\ (transitions_defined transitions init_state ->
        state_search_via_dijkstras init_state transitions success cost fuel'
        = Raised no_solution_found).
Proof.
  intros Hnd Hfin Hnone.
  set (Rs := list_to_set R : gset State).
  set (fuel := S (search_spec.measure transitions Rs ∅ (initial_frontier init_state cost))).
  destruct (while_loop_terminates init_state transitions success cost Hnd Rs)
    with (fuel := fuel) (v := (∅ : gmap State Path))
         (f := initial_frontier init_state cost)
    as (e & Hend & Hsignal).
  - intros s Hs. apply elem_of_list_to_set. by apply Hfin.
  - done.
  - by apply search_inv_initial.
  - unfold fuel. lia.
  - exists fuel. intros fuel' Hle.
    assert (Hend' : state_search_via_dijkstras init_state transitions success cost fuel'
                    = Raised e).
    { unfold state_search_via_dijkstras. by eapply while_loop_fuel_mono. }
    split; [by exists e|]. intros Hdef. by rewrite Hend', (Hsignal Hdef).
Qed.

Lemma no_solution_on_finite_graph_witness :
  NoDup flips.transitions.*1
  /\ (forall s, reachable flips.transitions flips.init_state s -> s ∈ flips.states)
  /\ (forall s, reachable flips.transitions flips.init_state s -> flips.never s = false)
  /\ transitions_defined flips.transitions flips.init_state
  /\ exists fuel, forall fuel', (fuel <= fuel')%nat ->
       (exists e,
          state_search_via_dijkstras flips.init_state flips.transitions
            flips.never flips.cost fuel' = Raised e)
       /\ (transitions_defined flips.transitions flips.init_state ->
           state_search_via_dijkstras flips.init_state flips.transitions
             flips.never flips.cost fuel' = Raised no_solution_found).
Proof.
  split; [apply flips_NoDup|]. split; [apply flips_states|].
  split; [apply flips_never|]. split; [apply flips_defined|].
  exact (no_solution_on_finite_graph flips.init_state flips.transitions flips.never
           flips.cost flips.states flips_NoDup flips_states flips_never).
Defined.

(** ** C4: success at the initial state *)

(** C4: if [success(init_state)] is true, [state_search_via_dijkstras]
    returns the empty path after one iteration, for any transition table
    and any cost function. *)
Theorem success_at_init_returns_empty_path
    (init_state : State) (transitions : list (string * Transition))
    (success : State -> bool) (cost : Path -> Z) (fuel : nat) :
  success init_state = true ->
  state_search_via_dijkstras init_state transitions success cost (S fuel) = Return [].
Proof.
  intros Hs. unfold state_search_via_dijkstras.
  rewrite initial_frontier_eq. simpl.
  unfold loop_body. simpl. by rewrite lookup_empty, Hs.
Qed.

Lemma success_at_init_returns_empty_path_witness :
  example.success ["000"; "111"; "222"] = true
  /\ state_search_via_dijkstras ["000"; "111"; "222"] example.transitions
       example.success example.cost 1 = Return [].
Proof.
  split; [reflexivity|].
  apply (success_at_init_returns_empty_path ["000"; "111"; "222"]). reflexivity.
Defined.

(** ** C5: the no-solution signal *)




(** ** C6: the visited mapping *)

(** C6: throughout a run of the loop, an iteration leaves the visited
    mapping as it is or adds one entry, for the state of the node just
    popped, which was not in the mapping and whose cost is minimal in the
    frontier; the entry holds the path of that node, and every entry present
    at some iteration is present, with the same path, at every later
    iteration.  The iteration that returns also records a state that was
    not in the mapping, with the path it returns. *)
Theorem visited_entries_are_final
    (init_state : State) (transitions : list (string * Transition))
    (success : State -> bool) (cost : Path -> Z)
    (n : nat) (visited : gmap State Path) (frontier : list heapnode) :
  run init_state transitions success cost n = Some (visited, frontier) ->
  (forall visited' frontier',
     run init_state transitions success cost (S n) = Some (visited', frontier') ->
     exists node frontier1,
       heappop frontier = Ok (node, frontier1)
       /\ (forall other, other ∈ frontier ->
             heapnode.cost node <= heapnode.cost other)
       /\ ((is_Some (visited !! heapnode.state node) /\ visited' = visited)
           \/ (visited !! heapnode.state node = None
               /\ visited' = <[heapnode.state node := heapnode.path node]> visited)))
  /\ (forall p,
        loop_body transitions success cost visited frontier = Ok (ReturnPath p) ->
        exists node frontier1,
          heappop frontier = Ok (node, frontier1)
          /\ visited !! heapnode.state node = None /\ p = heapnode.path node)
  /\ (forall m visited' frontier' s p,
        run init_state transitions success cost (n + m) = Some (visited', frontier') ->
        visited !! s = Some p -> visited' !! s = Some p).
Proof.
  intros Hrun. split_and!.
  - intros v' f' (v0 & f0 & Hrun0 & _ & Hbody)%run_S_Some.
    rewrite Hrun in Hrun0. injection Hrun0 as <- <-.
    apply loop_body_visited in Hbody as (node & f1 & Hpop & _ & Hcases).
    exists node, f1. split; [done|]. split; [|done].
    apply (heappop_ok frontier node f1); [|done]. by eapply run_frontier_ok.
  - intros p (node & f1 & Hpop & Hcases)%loop_body_Ok. exists node, f1.
    by destruct Hcases as [[_ [=]]|[(Hnone & _ & [= ->])|(_ & _ & f2 & _ & [=])]].
  - intros m v' f' s p Hrun'. by eapply run_visited_mono.
Qed.

Lemma visited_entries_are_final_witness :
  run flips.init_state flips.transitions flips.success flips.cost 1
    = Some ({[ ["00"] := [] ]},
            [ heapnode.__init__ ["10"] ["x0_01"] 1;
              heapnode.__init__ ["01"] ["x1_01"] 1 ])
  /\ forall m visited' frontier' s p,
       run flips.init_state flips.transitions flips.success flips.cost (1 + m)
         = Some (visited', frontier') ->
       ({[ ["00"] := [] ]} : gmap State Path) !! s = Some p -> visited' !! s = Some p.
Proof.
  assert (Hrun : run flips.init_state flips.transitions flips.success flips.cost 1
                 = Some ({[ ["00"] := [] ]},
                         [ heapnode.__init__ ["10"] ["x0_01"] 1;
                           heapnode.__init__ ["01"] ["x1_01"] 1 ]))
    by (vm_compute; reflexivity).
  split; [exact Hrun|].
  apply (visited_entries_are_final flips.init_state flips.transitions
           flips.success flips.cost 1 _ _ Hrun).
Defined.

(** ** C8: the gates undo themselves *)

(** The claim fails when a label of the subspace has two characters and at
    the position -1: with [low_radix = 9] the gate [x] turns [9] into [10]
    and then leaves [10] alone, [subswap] turns [99] into [1010] and leaves
    that alone, and [x] at position -1 turns [01] into [0001]. *)
Lemma gates_not_self_inverse :
  long_enough ["9"] 0
  /\ ~ self_inverse (fun state => x state 0 9) ["9"]
  /\ long_enough ["99"] 0
  /\ ~ self_inverse (fun state => subswap state 0 9) ["99"]
  /\ long_enough ["01"] (-1)
  /\ ~ self_inverse (fun state => x state (-1) 0) ["01"].
Proof.
  split_and!.
  - by apply (bool_decide_unpack _).
  - intros (state' & Hfirst & Hsecond). vm_compute in Hfirst.
    injection Hfirst as <-. by vm_compute in Hsecond.
  - by apply (bool_decide_unpack _).
  - intros (state' & Hfirst & Hsecond). vm_compute in Hfirst.
    injection Hfirst as <-. by vm_compute in Hsecond.
  - by apply (bool_decide_unpack _).
  - intros (state' & Hfirst & Hsecond). vm_compute in Hfirst.
    injection Hfirst as <-. by vm_compute in Hsecond.
Qed.

(** C8 (amended): for a position [qubit >= 0] and a radix
    [0 <= low_radix <= 8], so that both labels of the subspace are single
    characters: on every state whose basis strings all have a character at
    [qubit], applying [x] twice with the same [qubit] and [low_radix]
    returns the original state; and on every state, applying [subswap] twice
    with the same [low_qubit] and [low_radix] returns the original state. *)
Theorem gates_are_self_inverse (state : State) (qubit low_radix : Z) :
  0 <= qubit -> single_digit low_radix ->
  (long_enough state qubit -> self_inverse (fun state => x state qubit low_radix) state)
  /\ self_inverse (fun state => subswap state qubit low_radix) state.
Proof.
  intros Hq Hd. split.
  - intros Hlong. destruct (x_total state qubit low_radix Hq Hd Hlong) as [state' Hx].
    exists state'. split; [done|]. by apply x_twice.
  - destruct (subswap_total state qubit low_radix Hq Hd) as [state' Hs].
    exists state'. split; [done|]. by apply subswap_twice.
Qed.

Lemma gates_are_self_inverse_witness :
  0 <= 1 /\ single_digit 1
  /\ (long_enough example.init_state 1 ->
      self_inverse (fun state => x state 1 1) example.init_state)
  /\ self_inverse (fun state => subswap state 1 1) example.init_state.
Proof.
  split; [lia|]. split; [unfold single_digit; lia|].
  apply (gates_are_self_inverse example.init_state 1 1); [lia|unfold single_digit; lia].
Defined.

(** ** C9: the gates keep the shape of a state *)

(** With [low_radix = 9] the gate [x] writes the two-character label [10]
    over one character, and [subswap] writes [1010] over two; at the
    position -1 the gate [x] appends the whole string once more. *)
Lemma gates_change_shape :
  x ["9"] 0 9 = Ok ["10"] /\ ~ same_shape ["9"] ["10"]
  /\ subswap ["99"] 0 9 = Ok ["1010"] /\ ~ same_shape ["99"] ["1010"]
  /\ x ["01"] (-1) 0 = Ok ["0001"] /\ ~ same_shape ["01"] ["0001"].
Proof.
  split_and!; [by vm_compute| |by vm_compute| |by vm_compute|].
  - intros [_ Hlen]. apply Forall2_cons_1 in Hlen as [Hlen _]. by vm_compute in Hlen.
  - intros [_ Hlen]. apply Forall2_cons_1 in Hlen as [Hlen _]. by vm_compute in Hlen.
  - intros [_ Hlen]. apply Forall2_cons_1 in Hlen as [Hlen _]. by vm_compute in Hlen.
Qed.

(** C9 (amended): for a position [qubit >= 0] and a radix
    [0 <= low_radix <= 8], whenever [x] returns a state, and for every state
    that [subswap] is given (it always returns one), the output contains
    exactly as many basis strings as the input, and each output string has
    the same length as the corresponding input string. *)
Theorem gates_keep_shape (state state' : State) (qubit low_radix : Z) :
  0 <= qubit -> single_digit low_radix ->
  (x state qubit low_radix = Ok state' -> same_shape state state')
  /\ (exists out, subswap state qubit low_radix = Ok out)
  /\ (subswap state qubit low_radix = Ok state' -> same_shape state state').
Proof.
  intros Hq Hd. split_and!.
  - by apply x_same_shape.
  - by apply subswap_total.
  - by apply subswap_same_shape.
Qed.

Lemma gates_keep_shape_witness :
  0 <= 1 /\ single_digit 0
  /\ x example.init_state 1 0 = Ok ["010"; "100"; "220"]
  /\ same_shape example.init_state ["010"; "100"; "220"].
Proof.
  assert (Hx : x example.init_state 1 0 = Ok ["010"; "100"; "220"])
    by (vm_compute; reflexivity).
  split; [lia|]. split; [unfold single_digit; lia|]. split; [exact Hx|].
  destruct (gates_keep_shape example.init_state ["010"; "100"; "220"] 1 0)
    as [Hshape _]; [lia|unfold single_digit; lia|].
  exact (Hshape Hx).
Defined.

(** ** C10: the empty transition table *)

(** C10: if the transition table is empty and [success(init_state)] is
    false, the search examines the initial state only: after the first
    iteration the visited mapping holds [init_state] alone and the frontier
    is empty, there is no second iteration, and the outcome is the
    no-solution [RuntimeError]. *)
Theorem empty_table_reports_no_solution
    (init_state : State) (success : State -> bool) (cost : Path -> Z) (fuel : nat) :
  success init_state = false ->
  run init_state [] success cost 1 = Some ({[ init_state := [] ]}, [])
  /\ run init_state [] success cost 2 = None
  /\ state_search_via_dijkstras init_state [] success cost (S (S fuel))
     = Raised no_solution_found.
Proof.
  intros Hs.
  assert (Hbody : loop_body [] success cost ∅ (initial_frontier init_state cost)
                  = Ok (Continue {[ init_state := [] ]} [])).
  { rewrite initial_frontier_eq. unfold loop_body. simpl.
    rewrite lookup_empty, Hs. simpl. by rewrite insert_empty. }
  assert (Hrun : run init_state [] success cost 1 = Some ({[ init_state := [] ]}, [])).
  { apply run_S_Some. exists ∅, (initial_frontier init_state cost).
    split; [done|]. split; [|exact Hbody]. rewrite initial_frontier_eq. simpl. lia. }
  split; [exact Hrun|]. split.
  - destruct (run init_state [] success cost 2) as [[v f]|] eqn:Hrun2; [|done].
    apply run_S_Some in Hrun2 as (v0 & f0 & Hrun1 & Hlen & _).
    rewrite Hrun in Hrun1. injection Hrun1 as <- <-. simpl in Hlen. lia.
  - unfold state_search_via_dijkstras. rewrite while_loop_S, Hbody.
    by rewrite initial_frontier_eq.
Qed.

Lemma empty_table_reports_no_solution_witness :
  example.success example.init_state = false
  /\ state_search_via_dijkstras example.init_state [] example.success
       example.cost 2 = Raised no_solution_found.
Proof.
  split; [reflexivity|].
  apply (empty_table_reports_no_solution example.init_state example.success
           example.cost 0). reflexivity.
Defined.

(** * Further properties of the code *)

(** ** The tree of recorded paths, and the work of the loop *)

Lemma snoc_split {A} (q r l : list A) (x : A) :
  q ++ r = l ++ [x] -> r <> [] ->
  (q = l /\ r = [x]) \/ exists r', r' <> [] /\ l = q ++ r'.
Proof.
  intros Heq Hr. destruct r as [|y r0 _] using rev_ind; [done|].
  rewrite app_assoc in Heq. apply app_inj_tail in Heq as [<- <-].
  destruct r0 as [|z r0]; [left; by rewrite app_nil_r|].
  right. by exists (z :: r0).
Qed.

Lemma exc_foldl_app {A B} (f : B -> A -> Exc B) acc l1 l2 :
  exc_foldl f acc (l1 ++ l2) = acc' ← exc_foldl f acc l1; exc_foldl f acc' l2.
Proof.
  revert acc. induction l1 as [|a l1 IH]; intros acc; simpl; [done|].
  destruct (f acc a) as [acc'|e]; simpl; [apply IH|done].
Qed.

Section more_search_facts.
Variable init_state : State.
Variable transitions : list (string * Transition).
Variable success : State -> bool.
Variable cost : Path -> Z.

Implicit Types (v : gmap State Path) (f : list heapnode) (node : heapnode).

Local Abbreviation run' := (run init_state transitions success cost).
Local Abbreviation loop_body' := (loop_body transitions success cost).
Local Abbreviation while_loop' := (while_loop transitions success cost).
Local Abbreviation search_inv :=
  (search_spec.search_inv init_state transitions success cost).
Local Abbreviation prefixes_visited' := (prefixes_visited transitions init_state).

(** The number of iterations and the size of the frontier. *)
Lemma run_work_bound (n : nat) v f :
  run' n = Some (v, f) ->
  (n + length f <= 1 + length transitions * size v)%nat.
Proof.
  revert v f. induction n as [|n IH]; intros v f.
  - intros [= <- <-]. rewrite initial_frontier_eq. simpl. lia.
  - intros (v0 & f0 & Hrun & _ & Hbody)%run_S_Some.
    specialize (IH _ _ Hrun).
    apply loop_body_Ok in Hbody as (node & f1 & Hpop & Hcases).
    pose proof (heappop_perm _ _ _ Hpop) as Hperm.
    assert (Hf0 : length f0 = S (length f1)) by (by rewrite Hperm).
    destruct Hcases
      as [[Hsome [= -> ->]]|[(_ & _ & [=])|(Hnone & Hfail & f2 & Hf2 & [= -> ->])]].
    + lia.
    + apply expand_fold_Ok in Hf2 as (_ & Hlen & _).
      rewrite map_size_insert_None by done. nia.
Qed.

Section with_distinct_keys.
Hypothesis transitions_NoDup : NoDup transitions.*1.

(** The recorded paths form a tree rooted at the empty path. *)
Lemma prefixes_visited_mono v v' p :
  (forall s q, v !! s = Some q -> v' !! s = Some q) ->
  prefixes_visited' v p -> prefixes_visited' v' p.
Proof.
  intros Hsub Hp q r Heq Hr. destruct (Hp q r Heq Hr) as (s & Hs & Hv).
  exists s. split; [done|]. by apply Hsub.
Qed.

Lemma run_prefixes_visited (n : nat) v f :
  run' n = Some (v, f) ->
  forall m, m ∈ f -> prefixes_visited' v (heapnode.path m).
Proof.
  revert v f. induction n as [|n IH]; intros v f.
  - intros [= <- <-] m. rewrite initial_frontier_eq.
    intros ->%list_elem_of_singleton q r Heq Hr. simpl in Heq.
    symmetry in Heq. apply app_eq_nil in Heq as [_ ->]. done.
  - intros (v0 & f0 & Hrun & _ & Hbody)%run_S_Some.
    pose proof (run_search_inv _ _ _ _ transitions_NoDup _ _ _ Hrun) as Hinv.
    specialize (IH _ _ Hrun).
    apply loop_body_Ok in Hbody as (node & f1 & Hpop & Hcases).
    pose proof (heappop_perm _ _ _ Hpop) as Hperm.
    assert (Hin1 : forall m, m ∈ f1 -> m ∈ f0).
    { intros m Hm. rewrite Hperm. by apply list_elem_of_further. }
    assert (Hnode : node ∈ f0) by (rewrite Hperm; apply list_elem_of_here).
    destruct Hcases
      as [[Hsome [= -> ->]]|[(_ & _ & [=])|(Hnone & Hfail & f2 & Hf2 & [= -> ->])]].
    + intros m Hm. by apply IH, Hin1.
    + assert (Hsub : forall s q, v0 !! s = Some q ->
                <[heapnode.state node := heapnode.path node]> v0 !! s = Some q).
      { intros s q Hs. rewrite lookup_insert_ne; [done|]. congruence. }
      apply expand_fold_Ok in Hf2 as (_ & _ & _ & Hnew & _).
      intros m [Hm|(name & t & s' & _ & _ & _ & ->)]%Hnew.
      * eapply prefixes_visited_mono; [exact Hsub|]. by apply IH, Hin1.
      * intros q r Heq Hr. simpl in Heq. symmetry in Heq.
        apply snoc_split in Heq as [[-> _]|(r' & Hr' & Heq)]; [| |done].
        -- exists (heapnode.state node). split.
           ++ by apply (search_spec.inv_node _ _ Hinv).
           ++ by rewrite lookup_insert_eq.
        -- eapply prefixes_visited_mono; [exact Hsub| |done..].
           by apply IH.
Qed.

(** With a monotone cost, nothing in the frontier is cheaper than the
    node that was just popped. *)
Lemma popped_below_next (n : nat) v f node f1 v' f' :
  monotone_cost cost ->
  run' n = Some (v, f) -> heappop f = Ok (node, f1) ->
  run' (S n) = Some (v', f') ->
  forall m, m ∈ f' -> heapnode.cost node <= heapnode.cost m.
Proof.
  intros Hmono Hrun Hpop (v0 & f0 & Hrun0 & _ & Hbody)%run_S_Some.
  rewrite Hrun in Hrun0. injection Hrun0 as <- <-.
  pose proof (run_search_inv _ _ _ _ transitions_NoDup _ _ _ Hrun) as Hinv.
  destruct (heappop_ok f node f1 (search_spec.inv_heap _ _ Hinv) Hpop) as [_ Hmin].
  pose proof (heappop_perm _ _ _ Hpop) as Hperm.
  assert (Hin1 : forall m, m ∈ f1 -> m ∈ f).
  { intros m Hm. rewrite Hperm. by apply list_elem_of_further. }
  assert (Hnode : node ∈ f) by (rewrite Hperm; apply list_elem_of_here).
  apply loop_body_Ok in Hbody as (node' & f1' & Hpop' & Hcases).
  rewrite Hpop in Hpop'. injection Hpop' as <- <-.
  destruct Hcases
    as [[Hsome [= -> ->]]|[(_ & _ & [=])|(Hnone & Hfail & f2 & Hf2 & [= -> ->])]].
  - intros m Hm. by apply Hmin, Hin1.
  - apply expand_fold_Ok in Hf2 as (_ & _ & _ & Hnew & _).
    intros m [Hm|(name & t & s' & _ & _ & _ & ->)]%Hnew; [by apply Hmin, Hin1|].
    simpl. destruct (search_spec.inv_node _ _ Hinv node Hnode) as [_ ->].
    apply Hmono.
Qed.

(** The loop ends when the states of the graph lie in a finite set. *)
Lemma while_loop_ends (R : gset State) fuel v f :
  (forall s, reachable transitions init_state s -> s ∈ R) ->
  search_inv v f -> (search_spec.measure transitions R v f < fuel)%nat ->
  while_loop' fuel v f <> OutOfFuel.
Proof.
  intros HR. revert v f.
  induction fuel as [|fuel IH]; intros v f Hinv Hfuel; [lia|].
  rewrite while_loop_S. case_bool_decide as Hlen; [|done].
  destruct (heappop_Ok f Hlen) as (node & f1 & Hpop).
  pose proof (heappop_perm _ _ _ Hpop) as Hperm.
  assert (Hf : length f = S (length f1)) by (by rewrite Hperm).
  assert (Hnode : node ∈ f) by (rewrite Hperm; apply list_elem_of_here).
  destruct (search_spec.inv_node _ _ Hinv node Hnode) as [Hfollow _].
  assert (Hreach : reachable transitions init_state (heapnode.state node))
    by (by eexists).
  unfold loop_body. rewrite Hpop. simpl.
  destruct (v !! heapnode.state node) as [p|] eqn:Hv.
  - apply IH; [by eapply search_inv_skip|]. unfold search_spec.measure in *. lia.
  - destruct (success (heapnode.state node)) eqn:Hs; [done|].
    destruct (expand transitions cost
                (<[heapnode.state node := heapnode.path node]> v) node f1)
      as [f2|e] eqn:Hf2; simpl; [|done].
    apply IH; [by eapply search_inv_expand|].
    apply expand_fold_Ok in Hf2 as (_ & Hlen2 & _).
    assert (Hsize : (size (R ∖ dom (<[heapnode.state node := heapnode.path node]> v))
                     < size (R ∖ dom v))%nat).
    { apply subset_size. rewrite dom_insert_L.
      apply HR in Hreach. apply not_elem_of_dom in Hv.
      split.
      - intros y. rewrite !elem_of_difference, elem_of_union. tauto.
      - intros Hsub. specialize (Hsub (heapnode.state node)).
        rewrite !elem_of_difference, elem_of_union, elem_of_singleton in Hsub.
        tauto. }
    unfold search_spec.measure in *. nia.
Qed.
End with_distinct_keys.
End more_search_facts.

(** ** X1: completeness *)

(** X1: if the states reachable from [init_state] lie in a finite set, no
    transition raises on them, and one of them satisfies [success], then the
    search returns a path: from some amount of fuel on the outcome is a
    [return]. *)
Theorem search_finds_reachable_success
    (init_state : State) (transitions : list (string * Transition))
    (success : State -> bool) (cost : Path -> Z) (R : list State) :
  NoDup transitions.*1 ->
  (forall s, reachable transitions init_state s -> s ∈ R) ->
  transitions_defined transitions init_state ->
  (exists s, reachable transitions init_state s /\ success s = true) ->
  exists fuel, forall fuel', (fuel <= fuel')%nat ->
    exists p,
      state_search_via_dijkstras init_state transitions success cost fuel' = Return p.
Proof.
  intros Hnd HR Hdef (goal & Hgoal & Hsucc).
  set (Rs := list_to_set R : gset State).
  set (fuel := S (search_spec.measure transitions Rs ∅ (initial_frontier init_state cost))).
  exists fuel. intros fuel' Hle.
  assert (Hend : state_search_via_dijkstras init_state transitions success cost fuel
                 <> OutOfFuel).
  { apply (while_loop_ends init_state transitions success cost Hnd Rs).
    - intros s Hs. apply elem_of_list_to_set. by apply HR.
    - by apply search_inv_initial.
    - unfold fuel. lia. }
  assert (Hsame : state_search_via_dijkstras init_state transitions success cost fuel'
                  = state_search_via_dijkstras init_state transitions success cost fuel).
  { unfold state_search_via_dijkstras in *. by eapply while_loop_fuel_mono. }
  rewrite Hsame.
  destruct (state_search_via_dijkstras init_state transitions success cost fuel)
    as [p|e|] eqn:Hr; [by exists p| |done].
  exfalso.
  apply search_finishes in Hr as (n & v & f & _ & Hrun & Hfin); [|done].
  destruct Hfin as [[-> _]|[Hlen [(p' & _ & [=])|(e' & Hbody & _)]]].
  - pose proof (run_search_inv _ _ _ _ Hnd _ _ _ Hrun) as Hinv.
    pose proof (exhausted_no_success _ _ _ _ _ _ Hinv Hgoal). congruence.
  - destruct (Raise_from_transition _ _ _ _ _ _ _ _ Hnd Hrun Hlen Hbody)
      as (s & name & t & Hs & Hin & Ht).
    destruct (Hdef s name t Hs Hin) as [s' Hs']. congruence.
Qed.

Lemma flips_success_reachable :
  exists s, reachable flips.transitions flips.init_state s /\ flips.success s = true.
Proof. exists ["11"]. split; [by exists ["x0_01"; "x1_01"]|done]. Qed.

Lemma search_finds_reachable_success_witness :
  NoDup flips.transitions.*1
  /\ (forall s, reachable flips.transitions flips.init_state s -> s ∈ flips.states)
  /\ transitions_defined flips.transitions flips.init_state
  /\ (exists s, reachable flips.transitions flips.init_state s /\ flips.success s = true)
  /\ exists fuel, forall fuel', (fuel <= fuel')%nat ->
       exists p,
         state_search_via_dijkstras flips.init_state flips.transitions
           flips.success flips.cost fuel' = Return p.
Proof.
  split; [apply flips_NoDup|]. split; [apply flips_states|].
  split; [apply flips_defined|]. split; [apply flips_success_reachable|].
  exact (search_finds_reachable_success flips.init_state flips.transitions
           flips.success flips.cost flips.states flips_NoDup flips_states
           flips_defined flips_success_reachable).
Defined.

(** ** X2: the returned path is simple and stops at the first success *)

(** X2: whenever the search returns a path, no proper prefix of the path reaches
    a state satisfying [success], and no two different prefixes of the path
    (the path itself included) lead to the same state: the path never passes
    through a state twice. *)
Theorem returned_path_is_simple
    (init_state : State) (transitions : list (string * Transition))
    (success : State -> bool) (cost : Path -> Z) (fuel : nat) (p : Path) :
  NoDup transitions.*1 ->
  state_search_via_dijkstras init_state transitions success cost fuel = Return p ->
  (forall q r, p = q ++ r -> r <> [] ->
     exists s, follow transitions init_state q = Some s /\ success s = false)
  /\ (forall q1 q2, q1 `prefix_of` p -> q2 `prefix_of` p ->
        follow transitions init_state q1 = follow transitions init_state q2 ->
        q1 = q2).
Proof.
  intros Hnd Hret.
  apply search_finishes in Hret as (n & v & f & _ & Hrun & Hfin); [|done].
  destruct Hfin as [[_ [=]]|[_ [(p' & Hbody & [= <-])|(e & _ & [=])]]].
  pose proof (run_search_inv _ _ _ _ Hnd _ _ _ Hrun) as Hinv.
  destruct (Return_sound _ _ _ _ Hnd _ _ _ _ Hrun Hbody)
    as (node & f1 & s & Hpop & -> & -> & Hnone & Hfollow & Hs).
  assert (Hnode : node ∈ f).
  { rewrite (heappop_perm _ _ _ Hpop). apply list_elem_of_here. }
  pose proof (run_prefixes_visited _ _ _ _ Hnd _ _ _ Hrun node Hnode) as Htree.
  assert (Hproper : forall q, q `prefix_of` heapnode.path node ->
            q = heapnode.path node
            \/ exists s, follow transitions init_state q = Some s /\ v !! s = Some q).
  { intros q [r Hr]. destruct r as [|x r]; [left; by rewrite app_nil_r in Hr|].
    right. by apply (Htree q (x :: r)). }
  split.
  - intros q r Heq Hr. destruct (Htree q r Heq Hr) as (s & Hq & Hv).
    exists s. split; [done|]. by apply (search_spec.inv_visited _ _ Hinv s q).
  - intros q1 q2 [->|(s1 & Hq1 & Hv1)]%Hproper [->|(s2 & Hq2 & Hv2)]%Hproper; [done|..].
    + rewrite Hfollow, Hq2. intros [= <-].
      by pose proof (eq_trans (eq_sym Hv2) Hnone).
    + rewrite Hfollow, Hq1. intros [= ->].
      by pose proof (eq_trans (eq_sym Hv1) Hnone).
    + rewrite Hq1, Hq2. intros [= ->].
      pose proof (eq_trans (eq_sym Hv1) Hv2) as Heq. by injection Heq.
Qed.

Lemma returned_path_is_simple_witness :
  NoDup flips.transitions.*1
  /\ state_search_via_dijkstras flips.init_state flips.transitions
       flips.success flips.cost 10 = Return ["x0_01"; "x1_01"]
  /\ (forall q r, ["x0_01"; "x1_01"] = q ++ r -> r <> [] ->
        exists s, follow flips.transitions flips.init_state q = Some s
                  /\ flips.success s = false).
Proof.
  assert (Hret : state_search_via_dijkstras flips.init_state flips.transitions
                   flips.success flips.cost 10 = Return ["x0_01"; "x1_01"])
    by (vm_compute; reflexivity).
  split; [apply flips_NoDup|]. split; [exact Hret|].
  exact (proj1 (returned_path_is_simple _ _ _ _ _ _ flips_NoDup Hret)).
Defined.

(** ** X3: work done by the loop *)

(** X3: after [n] iterations, the number of iterations plus the size of the
    frontier is at most one plus the number of transitions times the number
    of visited states: a state is expanded once, when it enters the visited
    mapping, and every other iteration only discards a node. *)
Theorem iterations_and_frontier_are_bounded
    (init_state : State) (transitions : list (string * Transition))
    (success : State -> bool) (cost : Path -> Z)
    (n : nat) (visited : gmap State Path) (frontier : list heapnode) :
  run init_state transitions success cost n = Some (visited, frontier) ->
  (n + length frontier <= 1 + length transitions * size visited)%nat.
Proof. apply run_work_bound. Qed.

Lemma iterations_and_frontier_are_bounded_witness :
  run flips.init_state flips.transitions flips.success flips.cost 1
    = Some ({[ ["00"] := [] ]},
            [ heapnode.__init__ ["10"] ["x0_01"] 1;
              heapnode.__init__ ["01"] ["x1_01"] 1 ])
  /\ (1 + length [ heapnode.__init__ ["10"] ["x0_01"] 1;
                   heapnode.__init__ ["01"] ["x1_01"] 1 ]
      <= 1 + length flips.transitions
             * size ({[ ["00"] := [] ]} : gmap State Path))%nat.
Proof.
  assert (Hrun : run flips.init_state flips.transitions flips.success flips.cost 1
                 = Some ({[ ["00"] := [] ]},
                         [ heapnode.__init__ ["10"] ["x0_01"] 1;
                           heapnode.__init__ ["01"] ["x1_01"] 1 ]))
    by (vm_compute; reflexivity).
  split; [exact Hrun|].
  exact (iterations_and_frontier_are_bounded _ _ _ _ _ _ _ Hrun).
Defined.

(** ** X4: nodes are popped in order of cost *)

(** X4: with a cost that is monotone under extension, the node popped by an
    iteration costs no more than the node popped by the next iteration. *)
Theorem pops_are_in_cost_order
    (init_state : State) (transitions : list (string * Transition))
    (success : State -> bool) (cost : Path -> Z) (n : nat)
    (visited visited' : gmap State Path) (frontier frontier' rest rest' : list heapnode)
    (node node' : heapnode) :
  NoDup transitions.*1 -> monotone_cost cost ->
  run init_state transitions success cost n = Some (visited, frontier) ->
  heappop frontier = Ok (node, rest) ->
  run init_state transitions success cost (S n) = Some (visited', frontier') ->
  heappop frontier' = Ok (node', rest') ->
  heapnode.cost node <= heapnode.cost node'.
Proof.
  intros Hnd Hmono Hrun Hpop Hrun' Hpop'.
  apply (popped_below_next init_state transitions success cost Hnd n visited frontier
           node rest visited' frontier' Hmono Hrun Hpop Hrun').
  rewrite (heappop_perm _ _ _ Hpop'). apply list_elem_of_here.
Qed.

Lemma pops_are_in_cost_order_witness :
  NoDup flips.transitions.*1 /\ monotone_cost flips.cost
  /\ heapnode.cost (heapnode.__init__ ["00"] [] 0)
     <= heapnode.cost (heapnode.__init__ ["10"] ["x0_01"] 1).
Proof.
  split; [apply flips_NoDup|]. split; [apply length_cost_monotone|].
  apply (pops_are_in_cost_order flips.init_state flips.transitions flips.success
           flips.cost 0 ∅ {[ ["00"] := [] ]}
           [ heapnode.__init__ ["00"] [] 0 ]
           [ heapnode.__init__ ["10"] ["x0_01"] 1;
             heapnode.__init__ ["01"] ["x1_01"] 1 ]
           [] [ heapnode.__init__ ["01"] ["x1_01"] 1 ]);
    [apply flips_NoDup|apply length_cost_monotone|by vm_compute..].
Defined.

(** ** X5: the first transition that raises *)

(** X5: if [success(init_state)] is false and, in the iteration order of the
    table, the first transition that raises on [init_state] raises [e], the
    search ends in its first iteration with [e]. *)
Theorem first_raising_transition_ends_search
    (init_state : State) (before after : list (string * Transition))
    (name : string) (transition : Transition)
    (success : State -> bool) (cost : Path -> Z) (fuel : nat) (e : exn) :
  success init_state = false ->
  Forall (fun item => exists s', item.2 init_state = Ok s') before ->
  transition init_state = Raise e ->
  state_search_via_dijkstras init_state (before ++ (name, transition) :: after)
    success cost (S fuel) = Raised e.
Proof.
  intros Hs Hbefore Hraise. unfold state_search_via_dijkstras.
  rewrite while_loop_S, initial_frontier_eq. simpl.
  unfold loop_body. simpl. rewrite lookup_empty, Hs. unfold expand.
  rewrite exc_foldl_app.
  match goal with
  | |- context [exc_foldl ?g [] before] =>
      destruct (exc_foldl g [] before) as [f'|e'] eqn:Hf'
  end.
  - simpl. by rewrite Hraise.
  - apply expand_fold_Raise in Hf' as (name' & t' & Hin & Ht'). simpl in Ht'.
    destruct (proj1 (Forall_forall _ _) Hbefore (name', t') Hin) as [s' Hs'].
    simpl in Hs'. congruence.
Qed.

Lemma first_raising_transition_ends_search_witness :
  flips.success ["0"] = false
  /\ Forall (fun item : string * Transition => exists s', item.2 ["0"] = Ok s')
       [ ("x0_01", example.x0_01) ]
  /\ example.x1_01 ["0"] = Raise (IndexError "string index out of range")
  /\ state_search_via_dijkstras ["0"] flips.transitions flips.success flips.cost 1
     = Raised (IndexError "string index out of range").
Proof.
  assert (Hbefore : Forall (fun item : string * Transition =>
                              exists s', item.2 ["0"] = Ok s')
                      [ ("x0_01", example.x0_01) ]).
  { constructor; [|constructor]. by exists ["1"]. }
  split; [reflexivity|]. split; [exact Hbefore|]. split; [reflexivity|].
  exact (first_raising_transition_ends_search ["0"] [ ("x0_01", example.x0_01) ] []
           "x1_01" example.x1_01 flips.success flips.cost 0 _
           eq_refl Hbefore eq_refl).
Defined.

(** ** X6: every visited entry holds a cheapest path *)

(** X6: with a cost that is monotone under extension and whose order is kept by
    extension, at every iteration the path recorded for a visited state
    leads to that state and costs no more than any other path to it. *)
Theorem visited_paths_are_cheapest
    (init_state : State) (transitions : list (string * Transition))
    (success : State -> bool) (cost : Path -> Z)
    (n : nat) (visited : gmap State Path) (frontier : list heapnode)
    (s : State) (p : Path) :
  NoDup transitions.*1 -> monotone_cost cost ->
  extension_keeps_order transitions init_state cost ->
  run init_state transitions success cost n = Some (visited, frontier) ->
  visited !! s = Some p ->
  follow transitions init_state p = Some s
  /\ forall q, follow transitions init_state q = Some s -> cost p <= cost q.
Proof.
  intros Hnd Hmono Hext Hrun Hs. split.
  - pose proof (run_search_inv _ _ _ _ Hnd _ _ _ Hrun) as Hinv.
    by apply (search_spec.inv_visited _ _ Hinv s p).
  - intros q Hq.
    by eapply (run_opt_inv init_state transitions success cost Hnd Hmono Hext).
Qed.

Lemma visited_paths_are_cheapest_witness :
  NoDup flips.transitions.*1 /\ monotone_cost flips.cost
  /\ extension_keeps_order flips.transitions flips.init_state flips.cost
  /\ follow flips.transitions flips.init_state [] = Some ["00"]
  /\ forall q, follow flips.transitions flips.init_state q = Some ["00"] ->
               flips.cost [] <= flips.cost q.
Proof.
  split; [apply flips_NoDup|]. split; [apply length_cost_monotone|].
  split; [apply length_cost_extension|].
  apply (visited_paths_are_cheapest flips.init_state flips.transitions flips.success
           flips.cost 1 {[ ["00"] := [] ]}
           [ heapnode.__init__ ["10"] ["x0_01"] 1;
             heapnode.__init__ ["01"] ["x1_01"] 1 ] ["00"] []);
    [apply flips_NoDup|apply length_cost_monotone|apply length_cost_extension
    |by vm_compute|by vm_compute].
Defined.



Section frontier_facts.
Implicit Types (f : list heapnode) (nodes : list heapnode).

Lemma foldl_heappush_ok f nodes :
  search_spec.frontier_ok f -> search_spec.frontier_ok (foldl heappush f nodes).
Proof.
  revert f. induction nodes as [|n nodes IH]; intros f Hf; simpl; [done|].
  apply IH. by apply heappush_ok.
Qed.

Lemma foldl_heappush_perm f nodes : foldl heappush f nodes ≡ₚ nodes ++ f.
Proof.
  revert f. induction nodes as [|n nodes IH]; intros f; simpl; [done|].
  rewrite IH, heappush_perm. by rewrite Permutation_middle.
Qed.
End frontier_facts.

(** ** X7: the frontier gives back a cheapest node *)

(** X7: pushing any nodes onto an empty frontier and popping once returns one of
    the nodes, of minimum cost among them, and leaves exactly the others in
    the frontier; the pop raises only on an empty frontier, an
    [IndexError]. *)
Theorem frontier_pops_a_cheapest_node (nodes : list heapnode) :
  (nodes = [] -> exists msg, heappop (push_all nodes) = Raise (IndexError msg))
  /\ (nodes <> [] -> exists node rest, heappop (push_all nodes) = Ok (node, rest))
  /\ (forall node rest, heappop (push_all nodes) = Ok (node, rest) ->
        nodes ≡ₚ node :: rest
        /\ forall other, other ∈ nodes -> heapnode.cost node <= heapnode.cost other).
Proof.
  assert (Hok : search_spec.frontier_ok (push_all nodes)).
  { apply foldl_heappush_ok. intros j Hj a b Ha. done. }
  assert (Hperm : push_all nodes ≡ₚ nodes).
  { unfold push_all. by rewrite foldl_heappush_perm, app_nil_r. }
  split_and!.
  - intros ->. by eexists.
  - intros Hne. apply heappop_Ok. rewrite Hperm.
    destruct nodes; [done|simpl; lia].
  - intros node rest Hpop. split.
    + by rewrite <- Hperm, (heappop_perm _ _ _ Hpop).
    + intros other Hother. apply (heappop_ok _ _ _ Hok Hpop). by rewrite Hperm.
Qed.

(** ** X8: the comparison methods of [heapnode] *)

(** X8: the three comparison methods look at the cost only: exactly one of
    [a < b], [a == b], [a > b] holds, [>] is the converse of [<], [<] is
    transitive, and two nodes with different states and paths are [==] as
    soon as their costs agree. *)
Theorem heapnode_comparisons_by_cost (a b c : heapnode) :
  heapnode.__gt__ a b = heapnode.__lt__ b a
  /\ (heapnode.__lt__ a b = true /\ heapnode.__eq__ a b = false
        /\ heapnode.__gt__ a b = false
      \/ heapnode.__lt__ a b = false /\ heapnode.__eq__ a b = true
           /\ heapnode.__gt__ a b = false
      \/ heapnode.__lt__ a b = false /\ heapnode.__eq__ a b = false
           /\ heapnode.__gt__ a b = true)
  /\ (heapnode.__lt__ a b = true -> heapnode.__lt__ b c = true ->
      heapnode.__lt__ a c = true)
  /\ (heapnode.__eq__ a b = true <-> heapnode.cost a = heapnode.cost b).
Proof.
  unfold heapnode.__lt__, heapnode.__eq__, heapnode.__gt__. split_and!.
  - done.
  - destruct (Z.lt_trichotomy (heapnode.cost a) (heapnode.cost b)) as [H|[H|H]].
    + left. rewrite !bool_decide_eq_true, !bool_decide_eq_false. lia.
    + right; left. rewrite !bool_decide_eq_true, !bool_decide_eq_false. lia.
    + right; right. rewrite !bool_decide_eq_true, !bool_decide_eq_false. lia.
  - rewrite !bool_decide_eq_true. lia.
  - by rewrite bool_decide_eq_true.
Qed.

(** * More about the gates *)

Section more_gate_facts.
Implicit Types (s o : string) (q : Z) (state : State).

Lemma getitem_in_range s q :
  - pystr.len s <= q < pystr.len s -> exists c, pystr.getitem s q = Ok (pystr.of_chars [c]).
Proof.
  intros Hq. unfold pystr.getitem.
  set (i := if bool_decide (q < 0) then q + pystr.len s else q).
  assert (Hi : 0 <= i < pystr.len s) by (unfold i; case_bool_decide; lia).
  rewrite bool_decide_eq_true_2 by done.
  destruct (pystr.chars s !! Z.to_nat i) as [c|] eqn:Hc; [by exists c|].
  apply lookup_ge_None in Hc. rewrite len_chars in Hi. lia.
Qed.

Lemma getitem_out_of_range s q :
  ~ (- pystr.len s <= q < pystr.len s) ->
  pystr.getitem s q = Raise (IndexError "string index out of range").
Proof.
  intros Hq. unfold pystr.getitem.
  set (i := if bool_decide (q < 0) then q + pystr.len s else q).
  assert (Hi : ~ (0 <= i < pystr.len s)).
  { unfold i. pose proof (Z.le_ge_cases 0 (pystr.len s)).
    rewrite len_chars in *. case_bool_decide; lia. }
  by rewrite bool_decide_eq_false_2.
Qed.

Lemma x_body_in_range q low high s :
  - pystr.len s <= q < pystr.len s -> exists o, x_body q low high s = Ok o.
Proof.
  intros [c Hc]%getitem_in_range. unfold x_body. rewrite Hc.
  unfold mbind, exc_mbind. cbn [exc_bind].
  repeat case_bool_decide; by eexists.
Qed.

Lemma x_body_out_of_range q low high s :
  ~ (- pystr.len s <= q < pystr.len s) ->
  x_body q low high s = Raise (IndexError "string index out of range").
Proof. intros Hq%getitem_out_of_range. unfold x_body. by rewrite Hq. Qed.

Lemma exc_foldl_append_Raise (body : string -> Exc string) acc state e :
  exc_foldl (fun new_state string =>
               new_string ← body string; Ok (new_state ++ [new_string])) acc state
  = Raise e ->
  exists s, s ∈ state /\ body s = Raise e.
Proof.
  revert acc. induction state as [|s state IH]; intros acc; simpl; [done|].
  destruct (body s) as [o|e'] eqn:Hs; simpl.
  - intros (s' & Hin & Hs')%IH. exists s'. split; [by apply list_elem_of_further|done].
  - intros [= ->]. exists s. split; [apply list_elem_of_here|done].
Qed.

Lemma for_each_append_Raise (body : string -> Exc string) state e :
  for_each_append body state = Raise e -> exists s, s ∈ state /\ body s = Raise e.
Proof. apply exc_foldl_append_Raise. Qed.

Lemma x_returns state q low_radix :
  long_enough state q -> exists state', x state q low_radix = Ok state'.
Proof.
  intros Hlong. rewrite x_unfold. apply for_each_append_total.
  eapply Forall_impl; [exact Hlong|]. intros s Hs. by apply x_body_in_range.
Qed.

Lemma x_raises state q low_radix :
  ~ long_enough state q ->
  x state q low_radix = Raise (IndexError "string index out of range").
Proof.
  intros Hshort. rewrite x_unfold.
  destruct (for_each_append _ state) as [state'|e] eqn:Hx.
  - exfalso. apply Hshort. apply for_each_append_Ok in Hx.
    apply Forall_forall. intros s Hs.
    apply list_elem_of_lookup in Hs as [i Hi].
    destruct (Forall2_lookup_l _ _ _ _ _ Hx Hi) as (o & _ & Ho).
    destruct (decide (- pystr.len s <= q < pystr.len s)) as [|Hout]; [done|].
    rewrite x_body_out_of_range in Ho by done. done.
  - apply for_each_append_Raise in Hx as (s & _ & Hs).
    destruct (decide (- pystr.len s <= q < pystr.len s)) as [Hin|Hout].
    + destruct (x_body_in_range q (pystr.str low_radix)
                  (pystr.str (low_radix + 1)) s Hin) as [o Ho]. congruence.
    + rewrite x_body_out_of_range in Hs by done. congruence.
Qed.

(** *** [x] as a map over the basis strings *)







Lemma long_enough_same_shape state state' q :
  same_shape state state' -> long_enough state q <-> long_enough state' q.
Proof.
  intros [_ Hshape]. unfold long_enough.
  induction Hshape as [|s s' state state' Hlen _ IH].
  - done.
  - rewrite !Forall_cons, IH, Hlen. done.
Qed.

End more_gate_facts.

(** ** X9: when [x] raises *)

(** X9: for a position [qubit] that fits an index and labels [low_radix] and
    [low_radix + 1] that [str] prints: [x] returns a state if every basis
    string has a character at position [qubit] (counted from the end when
    negative), and raises [IndexError] otherwise, also when the strings
    before the short one were long enough. *)
Theorem x_raises_exactly_when_too_short (state : State) (qubit low_radix : Z) :
  index_sized qubit -> printable low_radix -> printable (low_radix + 1) ->
  (long_enough state qubit -> exists state', x state qubit low_radix = Ok state')
  /\ (~ long_enough state qubit ->
      x state qubit low_radix = Raise (IndexError "string index out of range")).
Proof.
  intros _ _ _. split.
  - apply x_returns.
  - apply x_raises.
Qed.

Lemma x_raises_exactly_when_too_short_witness :
  index_sized 2 /\ printable 0 /\ printable (0 + 1)
  /\ ~ long_enough ["000"; "11"; "222"] 2
  /\ x ["000"; "11"; "222"] 2 0 = Raise (IndexError "string index out of range").
Proof.
  assert (Hi : index_sized 2) by (unfold index_sized; lia).
  assert (H0 : printable 0) by (apply Z.pow_pos_nonneg; lia).
  assert (H1 : printable (0 + 1)) by (apply Z.pow_gt_1; lia).
  assert (Hshort : ~ long_enough ["000"; "11"; "222"] 2).
  { intros Hlong. apply Forall_cons in Hlong as [_ Hlong].
    apply Forall_cons in Hlong as [[_ Hlt] _]. by vm_compute in Hlt. }
  split_and!; [done..|].
  exact (proj2 (x_raises_exactly_when_too_short ["000"; "11"; "222"] 2 0 Hi H0 H1)
           Hshort).
Defined.

(** ** X10: gates on different positions commute *)





(** * The script *)

Lemma reachable_invariant (transitions : list (string * Transition))
    (init_state : State) (P : State -> Prop) :
  P init_state ->
  (forall s name transition s',
     P s -> (name, transition) ∈ transitions -> transition s = Ok s' -> P s') ->
  forall s, reachable transitions init_state s -> P s.
Proof.
  intros Hinit Hstep s [p Hp]. revert s Hp.
  induction p as [|name p IH] using rev_ind; intros s.
  - by intros [= <-].
  - rewrite follow_snoc.
    destruct (follow transitions init_state p) as [s0|]; [|done]. simpl.
    intros (t & Hin & Hts)%apply_transition_Some.
    eapply Hstep; [by apply IH|done..].
Qed.

Lemma three_qutrits_same_shape state state' :
  same_shape state state' -> three_qutrits state -> three_qutrits state'.
Proof.
  intros [Hlen Hshape] [Hthree Hall]. split; [congruence|].
  clear Hlen Hthree. induction Hshape as [|s s' state state' Hs _ IH]; [done|].
  apply Forall_cons in Hall as [Hs3 Hall]. constructor; [congruence|by apply IH].
Qed.

Lemma three_qutrits_long_enough state q :
  three_qutrits state -> 0 <= q <= 2 -> long_enough state q.
Proof.
  intros [_ Hall] Hq. eapply Forall_impl; [exact Hall|]. intros s Hs. simpl in *. lia.
Qed.

Lemma example_transitions_cases name transition :
  (name, transition) ∈ example.transitions ->
  exists q low_radix, 0 <= q <= 2 /\ single_digit low_radix
    /\ (transition = (fun state => x state q low_radix)
        \/ transition = (fun state => subswap state q low_radix)).
Proof.
  unfold example.transitions, single_digit. intros Hin.
  repeat (apply elem_of_cons in Hin as [[= -> ->]|Hin]);
    [..|by apply elem_of_nil in Hin].
  - exists 1, 0. split; [lia|]. split; [lia|]. by left.
  - exists 2, 0. split; [lia|]. split; [lia|]. by left.
  - exists 1, 1. split; [lia|]. split; [lia|]. by left.
  - exists 2, 1. split; [lia|]. split; [lia|]. by left.
  - exists 1, 0. split; [lia|]. split; [lia|]. by right.
  - exists 1, 1. split; [lia|]. split; [lia|]. by right.
Qed.

(** ** X11: the states of the script *)

(** X11: every state reachable from the initial state of the script has three
    basis strings of three characters, and none of the six transitions of
    the script raises on it. *)
Theorem script_states_are_three_qutrits (s : State) :
  reachable example.transitions example.init_state s ->
  three_qutrits s
  /\ forall name transition, (name, transition) ∈ example.transitions ->
       exists s', transition s = Ok s' /\ three_qutrits s'.
Proof.
  intros Hs.
  assert (Hthree : three_qutrits s).
  { revert s Hs. apply reachable_invariant.
    - split; [done|]. by repeat constructor.
    - intros s name t s' Hthree (q & lr & Hq & Hd & [->| ->])%example_transitions_cases Hts.
      + eapply three_qutrits_same_shape; [|done].
        apply (x_same_shape s q lr s'); [lia|done..].
      + eapply three_qutrits_same_shape; [|done].
        apply (subswap_same_shape s q lr s'); [lia|done..]. }
  split; [done|].
  intros name t (q & lr & Hq & Hd & [->| ->])%example_transitions_cases.
  - destruct (x_total s q lr) as [s' Hs']; [lia|done|by apply three_qutrits_long_enough|].
    exists s'. split; [done|]. eapply three_qutrits_same_shape; [|done].
    apply (x_same_shape s q lr s'); [lia|done..].
  - destruct (subswap_total s q lr) as [s' Hs']; [lia|done|].
    exists s'. split; [done|]. eapply three_qutrits_same_shape; [|done].
    apply (subswap_same_shape s q lr s'); [lia|done..].
Qed.

Lemma script_states_are_three_qutrits_witness :
  reachable example.transitions example.init_state ["010"; "100"; "220"]
  /\ three_qutrits ["010"; "100"; "220"].
Proof.
  assert (Hreach : reachable example.transitions example.init_state
                     ["010"; "100"; "220"]) by (by exists ["x1_01"]).
  split; [exact Hreach|].
  exact (proj1 (script_states_are_three_qutrits _ Hreach)).
Defined.

(** ** X12: the success predicate of the script *)

(** X12: on a state of three basis strings, the inclusion test of the script
    holds exactly for the GHZ state in some order: the three strings are
    [000], [111] and [222]. *)
Theorem success_is_ghz_up_to_order (state : State) :
  length state = 3%nat ->
  example.success state = true <-> state ≡ₚ ghz.
Proof.
  intros Hlen. unfold example.success.
  rewrite !andb_true_iff, !bool_decide_eq_true. split.
  - intros [[H0 H1] H2]. symmetry.
    apply submseteq_length_Permutation; [|by rewrite Hlen].
    apply NoDup_submseteq; [by apply (bool_decide_unpack _)|].
    intros s Hs. unfold ghz in Hs.
    repeat (apply elem_of_cons in Hs as [->|Hs]); [done..|by apply elem_of_nil in Hs].
  - intros Hperm. rewrite !Hperm. unfold ghz.
    split_and!; by apply (bool_decide_unpack _).
Qed.

Lemma success_is_ghz_up_to_order_witness :
  length ["111"; "222"; "000"] = 3%nat
  /\ (example.success ["111"; "222"; "000"] = true <-> ["111"; "222"; "000"] ≡ₚ ghz).
Proof.
  split; [reflexivity|]. apply (success_is_ghz_up_to_order ["111"; "222"; "000"]).
  reflexivity.
Defined.

(** ** X13: the cost function of the script *)

(** X13: the cost of the script is additive over concatenation (each [subswap*]
    name contributes 11 and every other name 1), so it is monotone under
    extension and extension keeps its order, the two preconditions of the
    optimality of the search. *)
Theorem script_cost_is_additive :
  (forall p q, example.cost (p ++ q) = example.cost p + example.cost q)
  /\ (forall p, Z.of_nat (length p) <= example.cost p)
  /\ monotone_cost example.cost
  /\ (forall transitions init_state,
        extension_keeps_order transitions init_state example.cost).
Proof.
  split_and!.
  - intros p q. unfold example.cost, Path. rewrite filter_app, !length_app. lia.
  - intros p. unfold example.cost. lia.
  - apply example_cost_monotone.
  - apply example_cost_extension.
Qed.

(** ** X14: what [x] changes *)

Section x_frame.
Implicit Types (s o : string) (q j : Z).

Lemma getitem_of_chars_insert s (k : nat) c j :
  0 <= j -> Z.to_nat j <> k ->
  pystr.getitem (pystr.of_chars (<[k := c]> (pystr.chars s))) j = pystr.getitem s j.
Proof.
  intros Hj Hne. unfold pystr.getitem.
  rewrite !len_chars, chars_of_chars, length_insert.
  rewrite !(bool_decide_eq_false_2 (j < 0)) by lia.
  by rewrite list_lookup_insert_ne.
Qed.

Lemma getitem_of_chars_insert_eq s (k : nat) c :
  (k < length (pystr.chars s))%nat ->
  pystr.getitem (pystr.of_chars (<[k := c]> (pystr.chars s))) (Z.of_nat k)
  = Ok (pystr.of_chars [c]).
Proof.
  intros Hk. apply getitem_Ok; [lia|]. exists c. split; [|done].
  rewrite chars_of_chars, Nat2Z.id. by apply list_lookup_insert_eq.
Qed.
End x_frame.

(** X14: for a position [qubit >= 0] and a single-digit radix, whenever [x]
    returns, each output string agrees with its input string at every
    position other than [qubit], and at [qubit] the label [str(low_radix)]
    has become [str(low_radix + 1)], the label [str(low_radix + 1)] has
    become [str(low_radix)], and any other character is unchanged. *)
Theorem x_changes_only_its_position (state state' : State) (qubit low_radix : Z) :
  0 <= qubit -> single_digit low_radix ->
  x state qubit low_radix = Ok state' ->
  Forall2 (fun s s' =>
             (forall j, 0 <= j -> j <> qubit -> pystr.getitem s' j = pystr.getitem s j)
             /\ (pystr.getitem s qubit = Ok (pystr.str low_radix) ->
                 pystr.getitem s' qubit = Ok (pystr.str (low_radix + 1)))
             /\ (pystr.getitem s qubit = Ok (pystr.str (low_radix + 1)) ->
                 pystr.getitem s' qubit = Ok (pystr.str low_radix))
             /\ (pystr.getitem s qubit <> Ok (pystr.str low_radix) ->
                 pystr.getitem s qubit <> Ok (pystr.str (low_radix + 1)) ->
                 pystr.getitem s' qubit = pystr.getitem s qubit))
          state state'.
Proof.
  intros Hq (dl & dh & Hne & Hl & Hh)%single_digit_str.
  rewrite x_unfold, Hl, Hh. intros Hall%for_each_append_Ok.
  eapply Forall2_impl; [exact Hall|]. clear Hall.
  intros s s' (c & Hc & ->)%x_body_Ok; [|done].
  pose proof (lookup_lt_Some _ _ _ Hc) as Hlen.
  assert (Hget : pystr.getitem s qubit = Ok (pystr.of_chars [c])).
  { apply getitem_Ok; [done|]. by exists c. }
  assert (Hget' : pystr.getitem
                    (pystr.of_chars (<[Z.to_nat qubit := flip_char dl dh c]> (pystr.chars s)))
                    qubit
                  = Ok (pystr.of_chars [flip_char dl dh c])).
  { rewrite <- (Z2Nat.id qubit) at 2 by done. by apply getitem_of_chars_insert_eq. }
  rewrite Hget, Hget'. split_and!.
  - intros j Hj Hjq. apply getitem_of_chars_insert; [done|]. lia.
  - intros [= Heq]. unfold flip_char.
    rewrite decide_False by congruence. by rewrite decide_True.
  - intros [= Heq]. unfold flip_char. by rewrite decide_True.
  - intros Hnl Hnh. unfold flip_char.
    rewrite !decide_False; [done| |]; congruence.
Qed.

Lemma x_changes_only_its_position_witness :
  0 <= 1 /\ single_digit 0
  /\ x example.init_state 1 0 = Ok ["010"; "100"; "220"]
  /\ Forall2 (fun s s' =>
                (forall j, 0 <= j -> j <> 1 -> pystr.getitem s' j = pystr.getitem s j)
                /\ (pystr.getitem s 1 = Ok (pystr.str 0) ->
                    pystr.getitem s' 1 = Ok (pystr.str (0 + 1)))
                /\ (pystr.getitem s 1 = Ok (pystr.str (0 + 1)) ->
                    pystr.getitem s' 1 = Ok (pystr.str 0))
                /\ (pystr.getitem s 1 <> Ok (pystr.str 0) ->
                    pystr.getitem s 1 <> Ok (pystr.str (0 + 1)) ->
                    pystr.getitem s' 1 = pystr.getitem s 1))
             example.init_state ["010"; "100"; "220"].
Proof.
  assert (Hx : x example.init_state 1 0 = Ok ["010"; "100"; "220"])
    by (vm_compute; reflexivity).
  split; [lia|]. split; [unfold single_digit; lia|]. split; [exact Hx|].
  apply (x_changes_only_its_position example.init_state _ 1 0);
    [lia|unfold single_digit; lia|exact Hx].
Defined.

(** ** X15: what [subswap] changes *)

Section subswap_frame.
Implicit Types (s o : string) (q j : Z).

Lemma getitem_ext s s' j :
  0 <= j -> length (pystr.chars s) = length (pystr.chars s') ->
  pystr.chars s !! Z.to_nat j = pystr.chars s' !! Z.to_nat j ->
  pystr.getitem s j = pystr.getitem s' j.
Proof.
  intros Hj Hlen Hlook. unfold pystr.getitem.
  rewrite !(bool_decide_eq_false_2 (j < 0)) by lia.
  by rewrite !len_chars, Hlen, Hlook.
Qed.

Lemma splice_lookup (pre mid mid' tl : list ascii) (i : nat) :
  length mid = length mid' ->
  (i < length pre \/ length pre + length mid <= i)%nat ->
  (pre ++ mid ++ tl) !! i = (pre ++ mid' ++ tl) !! i.
Proof.
  intros Hmid [Hi|Hi].
  - by rewrite !lookup_app_l.
  - rewrite !(lookup_app_r pre) by lia.
    rewrite !lookup_app_r by lia. by rewrite Hmid.
Qed.

Lemma flip_pair_cases dl dh (pair : list ascii) :
  flip_pair dl dh pair = pair \/ length pair = 2%nat.
Proof.
  unfold flip_pair. repeat case_decide; subst; auto.
Qed.
End subswap_frame.

(** X15: for a position [low_qubit >= 0] and a single-digit radix, [subswap]
    returns a state in which each string agrees with its input string at
    every position other than [low_qubit] and [low_qubit + 1]; the pair at
    these two positions has become [high high] if it was [low low], [low
    low] if it was [high high], and otherwise the string is unchanged. *)
Theorem subswap_changes_only_its_pair (state state' : State) (low_qubit low_radix : Z) :
  0 <= low_qubit -> single_digit low_radix ->
  subswap state low_qubit low_radix = Ok state' ->
  Forall2 (fun s s' =>
             let pair := pystr.slice s (Some low_qubit) (Some (low_qubit + 2)) in
             let pair' := pystr.slice s' (Some low_qubit) (Some (low_qubit + 2)) in
             let low := pystr.str low_radix +:+ pystr.str low_radix in
             let high := pystr.str (low_radix + 1) +:+ pystr.str (low_radix + 1) in
             (forall j, 0 <= j -> j <> low_qubit -> j <> low_qubit + 1 ->
                pystr.getitem s' j = pystr.getitem s j)
             /\ (pair = low -> pair' = high)
             /\ (pair = high -> pair' = low)
             /\ (pair <> low -> pair <> high -> s' = s))
          state state'.
Proof.
  intros Hq (dl & dh & Hne & Hl & Hh)%single_digit_str.
  rewrite subswap_unfold, Hl, Hh. intros Hall%for_each_append_Ok.
  eapply Forall2_impl; [exact Hall|]. clear Hall.
  intros s s' Hbody.
  pose proof (eq_trans (eq_sym Hbody) (subswap_body_eq low_qubit dl dh s Hq)) as Hs'.
  injection Hs' as ->. clear Hbody.
  set (k := Z.to_nat low_qubit). set (cs := pystr.chars s).
  set (pair := take 2 (drop k cs)).
  assert (Hcs : cs = take k cs ++ pair ++ drop (k + 2) cs).
  { unfold pair. by rewrite <- drop_drop, take_drop, take_drop. }
  assert (Hslice : pystr.chars (pystr.slice s (Some low_qubit) (Some (low_qubit + 2)))
                   = pair) by (by apply slice_pair).
  assert (Hstr : forall (t : string) l, t = pystr.of_chars l <-> pystr.chars t = l).
  { intros t l. split; [intros ->; apply chars_of_chars|].
    intros <-. by rewrite of_chars_chars. }
  cbv zeta.
  change (pystr.of_chars [dl] +:+ pystr.of_chars [dl]) with (pystr.of_chars [dl; dl]).
  change (pystr.of_chars [dh] +:+ pystr.of_chars [dh]) with (pystr.of_chars [dh; dh]).
  rewrite !Hstr, Hslice, slice_pair, chars_of_chars by done. fold k.
  destruct (flip_pair_cases dl dh pair) as [Hsame|Hpl].
  { rewrite Hsame, <- Hcs. unfold cs at 1 2. rewrite of_chars_chars.
    fold cs. fold pair. split_and!; [done| | |intros _ _; apply of_chars_chars].
    - intros Hp. revert Hsame. unfold flip_pair. rewrite decide_True by done.
      congruence.
    - intros Hp. revert Hsame. unfold flip_pair.
      rewrite decide_False, decide_True by congruence. congruence. }
  assert (Hk : length (take k cs) = k).
  { rewrite length_take. apply Nat.min_l.
    assert (length (drop k cs) >= 2)%nat.
    { unfold pair in Hpl. rewrite length_take in Hpl. lia. }
    rewrite length_drop in *. lia. }
  assert (Hpl' : length (flip_pair dl dh pair) = 2%nat)
    by (by rewrite flip_pair_length).
  destruct (splice_positions (take k cs) (flip_pair dl dh pair) (drop (k + 2) cs) k)
    as (_ & -> & _); [done..|].
  split_and!.
  - intros j Hj Hj1 Hj2.
    assert (Hlen : length cs = length (take k cs ++ pair ++ drop (k + 2) cs))
      by (by rewrite <- Hcs).
    assert (Hlook : cs !! Z.to_nat j
                    = (take k cs ++ pair ++ drop (k + 2) cs) !! Z.to_nat j)
      by (by rewrite <- Hcs).
    apply getitem_ext; [done| |]; rewrite chars_of_chars; fold cs.
    + rewrite Hlen, !length_app. lia.
    + rewrite Hlook. apply splice_lookup; [lia|]. rewrite Hk, Hpl'. lia.
  - intros Hp. unfold flip_pair. by rewrite decide_True.
  - intros Hp. unfold flip_pair. rewrite decide_False by congruence.
    by rewrite decide_True.
  - intros Hnl Hnh. unfold flip_pair. rewrite !decide_False by done.
    rewrite <- Hcs. unfold cs. by rewrite of_chars_chars.
Qed.

Lemma subswap_changes_only_its_pair_witness :
  0 <= 1 /\ single_digit 0
  /\ subswap example.init_state 1 0 = Ok ["011"; "110"; "220"]
  /\ Forall2 (fun s s' =>
                let pair := pystr.slice s (Some 1) (Some (1 + 2)) in
                let pair' := pystr.slice s' (Some 1) (Some (1 + 2)) in
                let low := pystr.str 0 +:+ pystr.str 0 in
                let high := pystr.str (0 + 1) +:+ pystr.str (0 + 1) in
                (forall j, 0 <= j -> j <> 1 -> j <> 1 + 1 ->
                   pystr.getitem s' j = pystr.getitem s j)
                /\ (pair = low -> pair' = high)
                /\ (pair = high -> pair' = low)
                /\ (pair <> low -> pair <> high -> s' = s))
             example.init_state ["011"; "110"; "220"].
Proof.
  assert (Hs : subswap example.init_state 1 0 = Ok ["011"; "110"; "220"])
    by (vm_compute; reflexivity).
  split; [lia|]. split; [unfold single_digit; lia|]. split; [exact Hs|].
  apply (subswap_changes_only_its_pair example.init_state _ 1 0);
    [lia|unfold single_digit; lia|exact Hs].
Defined.
